(** * Verification of the multithread library: thread_pool, mt::sort, mt::unique

    The development embeds the three headers of the library:
    - [thread_pool.hpp] as a labelled transition system over the pool's
      shared state (task queue, mutex, the two condition variables, the
      [active] counter and [shutdown_request]) and the program counters
      of the workers and of the thread that owns the pool, up to the
      destruction of the data members at the end of the destructor;
    - [sort.hpp] as the [quick_sort] task over an array and the runs of
      the tasks of one call in any order, together with the
      function-local static holding the closure;
    - [unique.hpp] as a program over an array with logged element
      accesses and logged [std::async] launches.

    Iterators are indices into the array that holds the range
    ([begin] is index 0, [end] is the length); [size_t] is a 64-bit
    unsigned integer whose multiplication wraps around.

    Two things the code can run into are left out: a [std::async] that
    cannot start its thread and throws, and the race between the write of
    [shutdown_request] at line 71 of thread_pool.hpp and its reads at
    line 147, which the pool's [undefined] does not record. *)

From stdpp Require Import base tactics numbers option list relations sorting.

(** ** Outcomes of a call *)

(** What the language leaves undefined and the code can run into. *)
Inductive ub_kind :=
| DivisionByZero
| OutOfRange
| InvalidRange
| DanglingReference
| UnlockOfUnownedMutex
| UseAfterDestruction.

(** A call returns, leaves by an exception, or has undefined behaviour. *)
Inductive outcome (X : Type) :=
| Returned (x : X)
| Thrown
| Undefined (u : ub_kind).
Arguments Returned {X} x.
Arguments Thrown {X}.
Arguments Undefined {X} u.

(** ** size_t *)

Module SizeT.
Definition width : N := 64.
Definition modulus : N := 2 ^ width.
(** Unsigned multiplication as the machine performs it. *)
Definition mul (a b : N) : N := (a * b) mod modulus.
End SizeT.

(** ** Ranges inside an array *)

Section ranges.
Context {A : Type}.
Implicit Types (arr l r : list A) (b e i : nat).

(** The elements of [[b, e)]. *)
Definition range_of b e arr : list A := take (e - b) (drop b arr).

(** The array after [[b, e)] has been overwritten with [r]. *)
Definition splice b e r arr : list A := take b arr ++ r ++ drop e arr.
End ranges.

(** ** mt::sort *)

Module MtSort.

(** A comparison functor as the standard library requires it. *)
Record StrictWeakOrder {A} (cmp : A → A → bool) : Prop := {
  swo_irrefl x : cmp x x = false;
  swo_trans x y z : cmp x y = true → cmp y z = true → cmp x z = true;
  swo_incomp x y z :
    cmp x y = false → cmp y x = false →
    cmp y z = false → cmp z y = false →
    cmp x z = false ∧ cmp z x = false
}.

(** The element after position [i] never compares before the element at
    [i], for every [i] in [[begin, end-1)]: the order [sort]'s comment
    promises. *)
Definition nondecreasing {A} (cmp : A → A → bool) (l : list A) : Prop :=
  ∀ i x y, l !! i = Some x → l !! S i = Some y → cmp y x = false.

(** The two algorithms [quick_sort] takes from [<algorithm>].
    [std_partition] returns the reordered range and the distance from its
    start to the partition point. *)
Class StdAlgorithms (A : Type) := {
  std_partition : (A → bool) → list A → list A * nat;
  std_sort : (A → A → bool) → list A → list A
}.

(** The standard fixes what the two algorithms achieve, not the order they
    leave equivalent elements in; the sort is verified against every
    implementation that conforms. *)
Record Conforming {A} `{!StdAlgorithms A} : Prop := {
  std_partition_perm pred l : (std_partition pred l).1 ≡ₚ l;
  std_partition_bound pred l : (std_partition pred l).2 ≤ length l;
  std_partition_left pred l :
    Forall (λ x, pred x = true)
           (take (std_partition pred l).2 (std_partition pred l).1);
  std_partition_right pred l :
    Forall (λ x, pred x = false)
           (drop (std_partition pred l).2 (std_partition pred l).1);
  std_sort_perm cmp l : std_sort cmp l ≡ₚ l;
  std_sort_sorted cmp l :
    StrictWeakOrder cmp → nondecreasing cmp (std_sort cmp l)
}.
Arguments Conforming A {_}.

(** A task of the pool: [quick_sort] bound to [begin] and [end]. *)
Definition task : Type := nat * nat.

(** The function-local static [quick_sort] is initialised by the first call
    of [sort] that reaches it, and its lambda captures [chunk_size], [pool]
    and [cmp] of that call by reference.  [sort] is a template, and every
    instantiation (a pair of an iterator type and a comparison type) has a
    static of its own.  [world] is what survives between the calls of one
    instantiation: the number of such calls made so far (the next call's
    identity) and, once the static is initialised, the call whose locals
    it refers to.  Calls of another instantiation have another [world]. *)
Record world := World {
  next_call : nat;
  quick_sort_static : option nat
}.

(** The program starts: no call of the instantiation has been made. *)
Definition program_start : world :=
  {| next_call := 0; quick_sort_static := None |}.

Section sort.
Context {A : Type} `{!StdAlgorithms A}.
Implicit Types (arr : list A) (cmp : A → A → bool) (q : list task).

(** What the lambda reaches through its captured references: the locals
    of the capturing call while that call is running, nothing afterwards. *)
Definition locals : Type := N * (A → A → bool).

Definition deref (this_call captured : nat) (frame : locals)
  : option locals :=
  if decide (captured = this_call) then Some frame else None.

(** The body of the lambda, sort.hpp lines 76-92.  It returns the array
    and the tasks it pushed to the pool, in order. *)
Definition quick_sort (env : option locals) (t : task) arr
  : outcome (list A * list task) :=
  let '(begin_, end_) := t in
  let sz := end_ - begin_ in
  if decide (sz ≤ 1) then Returned (arr, [])
  else match env with
  | None => Undefined DanglingReference
  | Some (chunk_size, cmp) =>
    if decide (chunk_size < N.of_nat sz)%N then
      match arr !! (begin_ + sz / 2) with
      | None => Undefined OutOfRange
      | Some pivot =>
        let p1 := std_partition (λ em, cmp em pivot)
                                (range_of begin_ end_ arr) in
        let arr1 := splice begin_ end_ p1.1 arr in
        let middle1 := begin_ + p1.2 in
        let p2 := std_partition (λ em, negb (cmp pivot em))
                                (range_of middle1 end_ arr1) in
        let arr2 := splice middle1 end_ p2.1 arr1 in
        let middle2 := middle1 + p2.2 in
        Returned (arr2, [(begin_, middle1); (middle2, end_)])
      end
    else
      Returned (splice begin_ end_
                       (std_sort cmp (range_of begin_ end_ arr)) arr, [])
  end.

(** The tasks of one call.  They work on pairwise disjoint ranges, so
    whatever the workers do at the same time amounts to running the
    tasks one after the other in some order; a step runs any task that
    is waiting to be run and appends what it pushed.  This says what the
    tasks do to the array, not that the pool gets to run them all: that
    is the matter of [ThreadPool]. *)
Record pool_state := PoolState {
  cells : list A;
  task_queue : list task
}.

Inductive pool_step (env : option locals) : pool_state → pool_state → Prop :=
| step_task arr q1 t q2 arr' pushed :
    quick_sort env t arr = Returned (arr', pushed) →
    pool_step env (PoolState arr (q1 ++ t :: q2))
                  (PoolState arr' (q1 ++ q2 ++ pushed)).

(** The tasks run to the end in queue order, as one worker alone takes
    them.  [fuel] bounds the number of tasks run; [None] means it ran
    out. *)
Fixpoint run_pool (fuel : nat) (env : option locals) arr q
  : option (outcome (list A)) :=
  match q with
  | [] => Some (Returned arr)
  | t :: q' =>
    match fuel with
    | 0 => None
    | S fuel' =>
      match quick_sort env t arr with
      | Returned (arr', pushed) => run_pool fuel' env arr' (q' ++ pushed)
      | Thrown => Some Thrown
      | Undefined u => Some (Undefined u)
      end
    end
  end.

(** sort.hpp lines 71-95: line 73 divides, line 74 constructs the pool,
    line 76 initialises the static if this is the first call of the
    instantiation, line 94 pushes the task of the whole range, and the
    call leaves through the destructor of the pool.  Of the schedules of
    the pool [sort] follows one: the threads start, one worker takes the
    tasks in queue order, and the destructor finds the queue drained and
    returns; [Some (Returned arr)] is the range this schedule leaves.
    The pool has other schedules, in which the destructor blocks for good
    or shuts down with tasks left; they are shown for the pool itself. *)
Definition sort (fuel : nat) (w : world) arr cmp (threads_amount : N)
  : world * option (outcome (list A)) :=
  let divisor := SizeT.mul threads_amount 8 in
  if decide (divisor = 0%N) then (w, Some (Undefined DivisionByZero))
  else
    let chunk_size := (N.of_nat (length arr) / divisor)%N in
    let this_call := next_call w in
    let captured := default this_call (quick_sort_static w) in
    let w' := {| next_call := S this_call;
                 quick_sort_static := Some captured |} in
    (w', run_pool fuel (deref this_call captured (chunk_size, cmp))
                  arr [(0, length arr)]).

End sort.
Arguments pool_state : clear implicits.
Arguments locals : clear implicits.

(** *** A conforming implementation of the two algorithms *)

Section reference_algorithms.
Context {A : Type}.

Definition stable_partition (pred : A → bool) (l : list A) : list A * nat :=
  (filter (λ x, pred x = true) l ++ filter (λ x, pred x ≠ true) l,
   length (filter (λ x, pred x = true) l)).

Fixpoint insert_sorted (cmp : A → A → bool) (x : A) (l : list A) : list A :=
  match l with
  | [] => [x]
  | y :: l' => if cmp x y then x :: l else y :: insert_sorted cmp x l'
  end.

Definition insertion_sort (cmp : A → A → bool) (l : list A) : list A :=
  foldr (insert_sorted cmp) [] l.

Definition reference_algorithms : StdAlgorithms A :=
  {| std_partition := stable_partition; std_sort := insertion_sort |}.
End reference_algorithms.

End MtSort.

(** ** mt::unique *)

Module MtUnique.

(** The array the range lives in, together with what the call did: the
    positions it read or wrote (latest first) and the ranges it handed to
    [std::async] (in launch order). *)
Record mem (A : Type) := Mem {
  cells : list A;
  accesses : list nat;
  launched : list (nat * nat)
}.
Arguments Mem {A} _ _ _.
Arguments cells {A} _.
Arguments accesses {A} _.
Arguments launched {A} _.

(** A computation over the array that may end in undefined behaviour. *)
Definition M (A X : Type) : Type := mem A → outcome (X * mem A).

Global Instance M_ret {A} : MRet (M A) := λ X x m, Returned (x, m).

Global Instance M_bind {A} : MBind (M A) := λ X Y f c m,
  match c m with
  | Returned (x, m') => f x m'
  | Thrown => Thrown
  | Undefined u => Undefined u
  end.

Section unique.
Context {A : Type}.
(** [operator==] of the element type. *)
Context (eqb : A → A → bool).
Implicit Types (p : A → A → bool) (m : mem A).

Definition undefined {X} (u : ub_kind) : M A X := λ _, Undefined u.

(** Reading through an iterator. *)
Definition read (i : nat) : M A A := λ m,
  match cells m !! i with
  | Some x => Returned (x, Mem (cells m) (i :: accesses m) (launched m))
  | None => Undefined OutOfRange
  end.

(** Assigning through an iterator. *)
Definition write (i : nat) (x : A) : M A unit := λ m,
  if decide (i < length (cells m))
  then Returned ((), Mem (<[i:=x]> (cells m)) (i :: accesses m) (launched m))
  else Undefined OutOfRange.

(** [std::async(std::launch::async, ...)] on the range [[b, e)]. *)
Definition launch (b e : nat) : M A unit := λ m,
  Returned ((), Mem (cells m) (accesses m) (launched m ++ [(b, e)])).

(** The loop of [std::unique], [n] iterations being left: [first] steps
    forward; when the element at [result] differs from the one at
    [first], [result] steps forward too and, unless they now coincide,
    receives the element at [first].  The new end is one past [result]. *)
Fixpoint unique_loop (n : nat) (result first : nat) : M A nat :=
  match n with
  | 0 => mret (S result)
  | S n' =>
    let first := S first in
    r ← read result;
    f ← read first;
    if eqb r f then unique_loop n' result first
    else
      let result := S result in
      (if decide (result = first) then mret () else write result f);;
      unique_loop n' result first
  end.

(** [std::unique(first, last)], which compares with [operator==]. *)
Definition std_unique (first last : nat) : M A nat :=
  if decide (first = last) then mret last
  else if decide (last < first) then undefined InvalidRange
  else unique_loop (last - first - 1) first first.

(** The loop of [std::copy], [n] elements being left: the element at
    [first] is assigned to [d_first] and both step forward. *)
Fixpoint copy_loop (n : nat) (first d_first : nat) : M A unit :=
  match n with
  | 0 => mret ()
  | S n' =>
    x ← read first;
    write d_first x;;
    copy_loop n' (S first) (S d_first)
  end.

Definition std_copy (first last d_first : nat) : M A unit :=
  if decide (last < first) then undefined InvalidRange
  else copy_loop (last - first) first d_first.

(** unique.hpp lines 64-69: iterations [i], [i+1], ... of the loop that
    launches one [std::unique] per part, [n] iterations being left.  The
    parts do not overlap, so the launched calls are run here in launch
    order; the list returned holds what [threads[i].get()] will yield. *)
Fixpoint launch_parts (part_size end_ : nat) (threads_amount : N)
                      (n : nat) (i : N) : M A (list nat) :=
  match n with
  | 0 => mret []
  | S n' =>
    let _begin := part_size * N.to_nat i in
    let _end := if decide (i = (threads_amount - 1)%N) then end_
                else part_size * (N.to_nat i + 1) in
    launch _begin _end;;
    new_end ← std_unique _begin _end;
    rest ← launch_parts part_size end_ threads_amount n' (i + 1)%N;
    mret (new_end :: rest)
  end.

(** unique.hpp lines 72-78: the iterations of the merging loop for the
    parts whose ends are [threads], the first of them being part [i]. *)
Fixpoint merge_parts p (part_size : nat) (threads : list nat)
                     (i : nat) (last : nat) : M A nat :=
  match threads with
  | [] => mret last
  | _last :: threads' =>
    let _begin := part_size * i in
    x ← read _begin;
    y ← (if decide (last = 0) then undefined OutOfRange
         else read (last - 1));
    let _begin := if p x y then S _begin else _begin in
    std_copy _begin _last last;;
    merge_parts p part_size threads' (S i) (last + (_last - _begin))
  end.

(** unique.hpp lines 59-80, on the range that is the whole array. *)
Definition unique p (threads_amount : N) : M A nat := λ m,
  let end_ := length (cells m) in
  if decide (threads_amount = 0%N) then Undefined DivisionByZero
  else
    let part_size := N.to_nat (N.of_nat end_ / threads_amount) in
    (threads ← launch_parts part_size end_ threads_amount
                            (N.to_nat threads_amount) 0%N;
     match threads with
     | [] => undefined OutOfRange
     | last :: threads' => merge_parts p part_size threads' 1 last
     end) m.

(** unique.hpp lines 83-87: the overload without a predicate passes
    [std::equal_to], that is [operator==] of the element type. *)
Definition unique_equal_to (threads_amount : N) : M A nat :=
  unique eqb threads_amount.

(** The range handed to [unique], before anything was done to it. *)
Definition fresh (l : list A) : mem A := Mem l [] [].
End unique.

End MtUnique.

(** ** thread_pool *)

Module ThreadPool.

(** A queued task: [std::bind] of a callable to copies of its arguments. *)
Record task := Task {
  callable : nat;
  arguments : list Z
}.

(** What a call of a callable on given arguments does, as far as the pool
    is concerned: the tasks it pushes to the pool, in order, and whether
    it then returns or throws. *)
Record behaviour := Behaviour {
  pushes : list task;
  throws : bool
}.

Definition program : Type := nat → list Z → behaviour.

Definition behaviour_of (prog : program) (t : task) : behaviour :=
  prog (callable t) (arguments t).

Inductive thread :=
| Owner
| Worker (i : nat).

(** Where a worker stands in [worker()], thread_pool.hpp lines 124-154. *)
Inductive wpc :=
| WStart                             (* 125: about to lock the mutex *)
| WInc                               (* 129: active++ *)
| WCheck                             (* 130: while (!task_queue.empty()) *)
| WCall (t : task)                   (* 137: task taken, mutex released *)
| WRun (t : task) (todo : list task) (* 137: inside task() *)
| WRelock                            (* 138: queue_mutex.lock() *)
| WDec                               (* 140: active-- *)
| WNotify                            (* 143: if (active == 0) notify_all *)
| WShutdown                          (* 147: if (shutdown_request) return *)
| WWait                              (* 152: about to wait on queue_cv *)
| WBlocked                           (* 152: blocked, mutex released *)
| WWoken                             (* 152: unblocked, locking the mutex *)
| WExited                            (* 148: returned *)
| WThrew.                            (* left worker() by an exception *)

(** What the owner of the pool asks of it. *)
Inductive op :=
| Push (t : task)
| Wait
| Destroy.

(** Where the owning thread stands: in its own code, inside [wait()]
    (lines 95-100; [dtor] tells whether the destructor called it), or in
    the rest of the destructor (lines 66-77). *)
Inductive opc :=
| ORun
| OWaitCheck (dtor : bool)           (* 97: mutex held *)
| OWaitBlocked (dtor : bool)         (* 98: blocked on wait_cv *)
| OWaitWoken (dtor : bool)           (* 98: unblocked, locking the mutex *)
| OWaitReturn (dtor : bool)          (* 100: mutex held, about to return *)
| OSetFlag                           (* 71 *)
| ONotifyAll                         (* 74 *)
| OJoin                              (* 77: the data members are destroyed *)
| ODestroyed.

(** The pool, the script its owner still has to run, and two records kept
    for the specification: every task ever added to the queue and every
    call a worker has made.  [members_destroyed] tells that the destructor
    has destroyed the data members declared after [threads] (lines
    104-109): the queue with the tasks still in it, the mutex, the
    condition variables, the flag and the counter. *)
Record pool := Pool {
  threads : list wpc;
  task_queue : list task;
  queue_mutex : option thread;
  active : nat;
  shutdown_request : bool;
  owner : opc;
  script : list op;
  submitted : list task;
  executed : list task;
  undefined : option ub_kind;
  members_destroyed : bool
}.

Definition set_threads (ws : list wpc) (s : pool) : pool :=
  Pool ws (task_queue s) (queue_mutex s) (active s) (shutdown_request s)
       (owner s) (script s) (submitted s) (executed s) (undefined s)
       (members_destroyed s).
Definition set_task_queue (q : list task) (s : pool) : pool :=
  Pool (threads s) q (queue_mutex s) (active s) (shutdown_request s)
       (owner s) (script s) (submitted s) (executed s) (undefined s)
       (members_destroyed s).
Definition set_queue_mutex (m : option thread) (s : pool) : pool :=
  Pool (threads s) (task_queue s) m (active s) (shutdown_request s)
       (owner s) (script s) (submitted s) (executed s) (undefined s)
       (members_destroyed s).
Definition set_active (n : nat) (s : pool) : pool :=
  Pool (threads s) (task_queue s) (queue_mutex s) n (shutdown_request s)
       (owner s) (script s) (submitted s) (executed s) (undefined s)
       (members_destroyed s).
Definition set_shutdown_request (b : bool) (s : pool) : pool :=
  Pool (threads s) (task_queue s) (queue_mutex s) (active s) b
       (owner s) (script s) (submitted s) (executed s) (undefined s)
       (members_destroyed s).
Definition set_owner (pc : opc) (s : pool) : pool :=
  Pool (threads s) (task_queue s) (queue_mutex s) (active s)
       (shutdown_request s) pc (script s) (submitted s) (executed s)
       (undefined s) (members_destroyed s).
Definition set_script (ops : list op) (s : pool) : pool :=
  Pool (threads s) (task_queue s) (queue_mutex s) (active s)
       (shutdown_request s) (owner s) ops (submitted s) (executed s)
       (undefined s) (members_destroyed s).
Definition set_submitted (ts : list task) (s : pool) : pool :=
  Pool (threads s) (task_queue s) (queue_mutex s) (active s)
       (shutdown_request s) (owner s) (script s) ts (executed s)
       (undefined s) (members_destroyed s).
Definition set_executed (ts : list task) (s : pool) : pool :=
  Pool (threads s) (task_queue s) (queue_mutex s) (active s)
       (shutdown_request s) (owner s) (script s) (submitted s) ts
       (undefined s) (members_destroyed s).
Definition set_undefined (u : option ub_kind) (s : pool) : pool :=
  Pool (threads s) (task_queue s) (queue_mutex s) (active s)
       (shutdown_request s) (owner s) (script s) (submitted s) (executed s)
       u (members_destroyed s).
Definition set_members_destroyed (b : bool) (s : pool) : pool :=
  Pool (threads s) (task_queue s) (queue_mutex s) (active s)
       (shutdown_request s) (owner s) (script s) (submitted s) (executed s)
       (undefined s) b.

Definition set_worker (i : nat) (pc : wpc) (s : pool) : pool :=
  set_threads (<[i:=pc]> (threads s)) s.

(** The constructor, lines 60-65, when each [std::async] of line 63
    starts its thread: [threads_amount] workers are launched, whatever the
    number, zero included; the owner goes on with its script.  When a
    thread cannot be started [std::async] throws [std::system_error] out
    of the constructor; what the program does then is not described
    here, so [thread_pool] is the pool of a constructor that returned. *)
Definition thread_pool (threads_amount : N) (ops : list op) : pool :=
  {| threads := replicate (N.to_nat threads_amount) WStart;
     task_queue := [];
     queue_mutex := None;
     active := 0;
     shutdown_request := false;
     owner := ORun;
     script := ops;
     submitted := [];
     executed := [];
     undefined := None;
     members_destroyed := false |}.

(** *** Mutex and condition variables *)

Definition acquire (th : thread) (s : pool) : option pool :=
  match queue_mutex s with
  | None => Some (set_queue_mutex (Some th) s)
  | Some _ => None
  end.

Definition release (s : pool) : pool := set_queue_mutex None s.

Definition is_blocked (pc : wpc) : bool :=
  match pc with WBlocked => true | _ => false end.

(** [queue_cv.notify_one()]: when workers are blocked on [queue_cv], one
    of them, [wake], is unblocked; when none is, nothing happens. *)
Definition notify_one (wake : nat) (ws : list wpc) : option (list wpc) :=
  match ws !! wake with
  | Some WBlocked => Some (<[wake:=WWoken]> ws)
  | _ => if existsb is_blocked ws then None else Some ws
  end.

(** [queue_cv.notify_all()]. *)
Definition notify_all (ws : list wpc) : list wpc :=
  (λ pc, if is_blocked pc then WWoken else pc) <$> ws.

(** [wait_cv.notify_all()]: only the owner ever waits on [wait_cv]. *)
Definition notify_waiter (pc : opc) : opc :=
  match pc with
  | OWaitBlocked dtor => OWaitWoken dtor
  | _ => pc
  end.

(** *** The member functions *)

(** [add], lines 111-122.  All of it happens inside the [lock_guard], so
    it is one step, which needs the mutex to be free.  [push] (lines
    90-93) binds the callable to its arguments and calls [add]. *)
Definition add (t : task) (wake : nat) (s : pool) : option pool :=
  match queue_mutex s with
  | Some _ => None
  | None =>
    ws ← notify_one wake (threads s);
    Some (set_threads ws
           (set_task_queue (task_queue s ++ [t])
             (set_submitted (submitted s ++ [t]) s)))
  end.

Definition push (f : nat) (args : list Z) (wake : nat) (s : pool)
  : option pool :=
  add (Task f args) wake s.

(** The next step of a worker at [pc] uses a data member of the pool.
    The call of a task already taken does not (line 132 moved the task
    into a local of [worker()]), nor does the return from a call. *)
Definition uses_members (pc : wpc) : bool :=
  match pc with
  | WCall _ | WRun _ [] | WBlocked | WExited | WThrew => false
  | _ => true
  end.

(** One step of worker [i], lines 124-154.  Lines 132-136 (take the task
    at the head of the queue, unlock) are one step, made with the mutex
    held; the call of line 137 is the next one, made without it, so that
    other workers can take and call tasks in between.  [executed] records
    the call when it is made.  A step that uses a data member the
    destructor has destroyed is undefined. *)
Definition worker (prog : program) (i wake : nat) (s : pool) : option pool :=
  pc ← threads s !! i;
  if uses_members pc && members_destroyed s
  then Some (set_undefined (Some UseAfterDestruction) s)
  else
  match pc with
  | WStart => set_worker i WInc <$> acquire (Worker i) s
  | WInc => Some (set_worker i WCheck (set_active (S (active s)) s))
  | WCheck =>
    match task_queue s with
    | [] => Some (set_worker i WDec s)
    | t :: q => Some (set_worker i (WCall t) (set_task_queue q (release s)))
    end
  | WCall t =>
    Some (set_worker i (WRun t (pushes (behaviour_of prog t)))
           (set_executed (executed s ++ [t]) s))
  | WRun t (t' :: todo) => set_worker i (WRun t todo) <$> add t' wake s
  | WRun t [] =>
    if throws (behaviour_of prog t)
    then Some (set_worker i WThrew
                (set_undefined (Some UnlockOfUnownedMutex) s))
    else Some (set_worker i WRelock s)
  | WRelock => set_worker i WCheck <$> acquire (Worker i) s
  | WDec => Some (set_worker i WNotify (set_active (pred (active s)) s))
  | WNotify =>
    if decide (active s = 0)
    then Some (set_worker i WShutdown (set_owner (notify_waiter (owner s)) s))
    else Some (set_worker i WShutdown s)
  | WShutdown =>
    if shutdown_request s
    then Some (set_worker i WExited (release s))
    else Some (set_worker i WWait s)
  | WWait => Some (set_worker i WBlocked (release s))
  | WBlocked => None
  | WWoken => set_worker i WInc <$> acquire (Worker i) s
  | WExited => None
  | WThrew => None
  end.

Definition finished (pc : wpc) : bool :=
  match pc with WExited | WThrew => true | _ => false end.

(** One step of the owner: the next operation of its script, [wait()]
    (lines 95-100) or the destructor (lines 66-77).

    Line 71 writes [shutdown_request], a [volatile bool], without holding
    the mutex, while the workers read it at line 147: the language orders
    neither access before the other.  Here the write has the meaning
    implementations give it (it is one store, seen by every later read);
    the race itself is not recorded in [undefined], which therefore tells
    of the other undefined steps only.

    At line 77 the body of the destructor ends and the data members are
    destroyed in the reverse order of their declaration (lines 103-109):
    the counter, the flag, the condition variables, the mutex and the
    queue first, and [threads], declared first, last.  So the tasks still
    queued are destroyed without being called, and only then do the
    futures in [threads] wait for their workers to return.  What the
    destructors of the mutex and of the condition variables require of
    their state is not described; a worker's next use of a destroyed
    member is (see [worker]). *)
Definition owner_step (wake : nat) (s : pool) : option pool :=
  match owner s with
  | ORun =>
    match script s with
    | [] => None
    | Push t :: ops => set_script ops <$> push (callable t) (arguments t) wake s
    | Wait :: ops =>
      set_owner (OWaitCheck false) <$> (set_script ops <$> acquire Owner s)
    | Destroy :: ops =>
      set_owner (OWaitCheck true) <$> (set_script ops <$> acquire Owner s)
    end
  | OWaitCheck dtor =>
    if bool_decide (task_queue s ≠ [] ∨ 0 < active s)
    then Some (set_owner (OWaitBlocked dtor) (release s))
    else Some (set_owner (OWaitReturn dtor) s)
  | OWaitBlocked _ => None
  | OWaitWoken dtor => set_owner (OWaitReturn dtor) <$> acquire Owner s
  | OWaitReturn dtor =>
    Some (set_owner (if dtor then OSetFlag else ORun) (release s))
  | OSetFlag => Some (set_owner ONotifyAll (set_shutdown_request true s))
  | ONotifyAll => Some (set_owner OJoin (set_threads (notify_all (threads s)) s))
  | OJoin =>
    if members_destroyed s
    then if forallb finished (threads s) then Some (set_owner ODestroyed s)
         else None
    else Some (set_members_destroyed true s)
  | ODestroyed => None
  end.

(** A wait on a condition variable may return without any notification. *)
Definition spurious (th : thread) (s : pool) : option pool :=
  match th with
  | Owner =>
    match owner s with
    | OWaitBlocked dtor => Some (set_owner (OWaitWoken dtor) s)
    | _ => None
    end
  | Worker i =>
    match threads s !! i with
    | Some WBlocked => Some (set_worker i WWoken s)
    | _ => None
    end
  end.

(** *** The transition system *)

(** What the scheduler decides: which thread takes its next step (and,
    should the step notify one waiter of [queue_cv], which one wakes up),
    or whose wait returns spuriously. *)
Inductive label :=
| Step (th : thread) (wake : nat)
| Spurious (th : thread).

(** Nothing is said about what follows undefined behaviour. *)
Definition step (prog : program) (l : label) (s : pool) : option pool :=
  match undefined s with
  | Some _ => None
  | None =>
    match l with
    | Step Owner wake => owner_step wake s
    | Step (Worker i) wake => worker prog i wake s
    | Spurious th => spurious th s
    end
  end.

Fixpoint run (prog : program) (ls : list label) (s : pool) : option pool :=
  match ls with
  | [] => Some s
  | l :: ls' => s' ← step prog l s; run prog ls' s'
  end.

Definition is_spurious (l : label) : bool :=
  match l with Spurious _ => true | Step _ _ => false end.

(** [steps true] are the steps of the pool; [steps false] are those that
    are not spurious wake-ups. *)
Definition steps (with_spurious : bool) (prog : program) : relation pool :=
  λ s s', ∃ l, (is_spurious l → with_spurious) ∧ step prog l s = Some s'.

(** *** What the specification speaks about *)

(** The task a worker has taken from the queue and not finished yet. *)
Definition running (pc : wpc) : option task :=
  match pc with
  | WCall t | WRun t _ => Some t
  | _ => None
  end.

(** Queue empty and no task taken and unfinished. *)
Definition quiescent (s : pool) : Prop :=
  task_queue s = [] ∧ Forall (λ pc, running pc = None) (threads s).

End ThreadPool.

(** * Properties *)

(** ** Ranges *)

Section range_facts.
Context {A : Type}.
Implicit Types (arr l r : list A) (b e i : nat).

Lemma length_range_of b e arr :
  e ≤ length arr → length (range_of b e arr) = e - b.
Proof. intros. unfold range_of. rewrite length_take, length_drop. lia. Qed.

Lemma range_of_lookup b e arr i :
  i < e - b → range_of b e arr !! i = arr !! (b + i).
Proof.
  intros. unfold range_of. by rewrite lookup_take_lt, lookup_drop.
Qed.

Lemma elem_of_range_of b e arr x :
  x ∈ range_of b e arr ↔ ∃ i, b ≤ i < e ∧ arr !! i = Some x.
Proof.
  unfold range_of. rewrite elem_of_take. split.
  - intros (i & Hi & ?). rewrite lookup_drop in Hi. exists (b + i).
    split; [lia|done].
  - intros (i & ? & Hi). exists (i - b). rewrite lookup_drop.
    replace (b + (i - b)) with i by lia. split; [done|lia].
Qed.

Lemma length_splice b e r arr :
  b ≤ e ≤ length arr → length r = e - b →
  length (splice b e r arr) = length arr.
Proof.
  intros ? Hr. unfold splice.
  rewrite !length_app, length_take, length_drop, Hr. lia.
Qed.

Lemma splice_lookup_lt b e r arr i :
  b ≤ length arr → i < b → splice b e r arr !! i = arr !! i.
Proof.
  intros. unfold splice.
  rewrite lookup_app_l by (rewrite length_take; lia).
  by rewrite lookup_take_lt.
Qed.

Lemma splice_lookup_mid b e r arr i :
  b ≤ length arr → b ≤ i < b + length r →
  splice b e r arr !! i = r !! (i - b).
Proof.
  intros. unfold splice.
  rewrite lookup_app_r by (rewrite length_take; lia).
  rewrite length_take, Nat.min_l by lia.
  by rewrite lookup_app_l by lia.
Qed.

Lemma splice_lookup_ge b e r arr i :
  b ≤ e ≤ length arr → length r = e - b → e ≤ i →
  splice b e r arr !! i = arr !! i.
Proof.
  intros ? Hr ?. unfold splice.
  rewrite lookup_app_r by (rewrite length_take; lia).
  rewrite length_take, Nat.min_l by lia.
  rewrite lookup_app_r by lia.
  rewrite lookup_drop. f_equal. lia.
Qed.

Lemma splice_range_of b e arr :
  b ≤ e ≤ length arr → splice b e (range_of b e arr) arr = arr.
Proof.
  intros. unfold splice, range_of.
  rewrite app_assoc, take_take_drop.
  replace (b + (e - b)) with e by lia. apply take_drop.
Qed.

Lemma splice_perm b e r arr :
  b ≤ e ≤ length arr → r ≡ₚ range_of b e arr → splice b e r arr ≡ₚ arr.
Proof.
  intros ? Hr. rewrite <-(splice_range_of b e arr) at 2 by done.
  unfold splice. by rewrite Hr.
Qed.

Lemma range_of_splice b e r arr :
  b ≤ e ≤ length arr → length r = e - b →
  range_of b e (splice b e r arr) = r.
Proof.
  intros ? Hr. unfold range_of, splice.
  rewrite drop_app_length' by (rewrite length_take; lia).
  by rewrite take_app_length' by lia.
Qed.

(** Overwriting the tail [[m, e)] of a range that was just overwritten. *)
Lemma splice_splice b m e r r' arr :
  b ≤ m → m ≤ e ≤ length arr → length r = e - b → length r' = e - m →
  splice m e r' (splice b e r arr) = splice b e (take (m - b) r ++ r') arr.
Proof.
  intros ?? Hr Hr'. apply list_eq; intros i.
  assert (length (splice b e r arr) = length arr)
    by (apply length_splice; [lia|done]).
  assert (length (take (m - b) r) = m - b)
    by (rewrite length_take; lia).
  destruct (decide (i < b)).
  { rewrite !splice_lookup_lt by lia. done. }
  destruct (decide (i < m)).
  { rewrite splice_lookup_lt by lia.
    rewrite !splice_lookup_mid by (rewrite ?length_app; lia).
    rewrite lookup_app_l by lia. by rewrite lookup_take_lt by lia. }
  destruct (decide (i < e)).
  { rewrite !splice_lookup_mid by (rewrite ?length_app; lia).
    rewrite lookup_app_r by lia. f_equal. lia. }
  rewrite !splice_lookup_ge by (rewrite ?length_app; lia). done.
Qed.

Lemma range_of_tail_splice b m e r arr :
  b ≤ m → m ≤ e ≤ length arr → length r = e - b →
  range_of m e (splice b e r arr) = drop (m - b) r.
Proof.
  intros ?? Hr. apply list_eq; intros i.
  assert (length (splice b e r arr) = length arr)
    by (apply length_splice; [lia|done]).
  destruct (decide (i < e - m)).
  - rewrite range_of_lookup by done.
    rewrite splice_lookup_mid by lia. rewrite lookup_drop. f_equal. lia.
  - rewrite !(lookup_ge_None_2 _ i); [done| |].
    + rewrite length_drop. lia.
    + rewrite length_range_of by lia. lia.
Qed.
End range_facts.

(** ** mt::sort *)

Module MtSortSpec.
Import MtSort.

(** *** Strict weak orders *)

Section order_facts.
Context {A : Type} (cmp : A → A → bool) (Hswo : StrictWeakOrder cmp).

Lemma not_before_trans x y z :
  cmp y x = false → cmp z y = false → cmp z x = false.
Proof.
  intros Hyx Hzy. destruct (cmp z x) eqn:Hzx; [|done].
  destruct (cmp x y) eqn:Hxy.
  { rewrite (swo_trans _ Hswo z x y) in Hzy; done. }
  destruct (cmp y z) eqn:Hyz.
  { rewrite (swo_trans _ Hswo y z x) in Hyx; done. }
  destruct (swo_incomp _ Hswo x y z) as [_ ?]; congruence.
Qed.

Lemma nondecreasing_pairwise l i j x y :
  nondecreasing cmp l → i < j →
  l !! i = Some x → l !! j = Some y → cmp y x = false.
Proof.
  intros Hl Hij Hx. revert y. induction Hij as [|j Hij IH]; intros y Hy.
  - by eapply Hl.
  - destruct (lookup_lt_is_Some_2 l j) as [z Hz].
    { apply lookup_lt_Some in Hy. lia. }
    eapply not_before_trans; [by apply IH|by eapply Hl].
Qed.
End order_facts.

(** *** Queues of pairwise disjoint ranges *)

Definition disjoint (t1 t2 : task) : Prop := t1.2 ≤ t2.1 ∨ t2.2 ≤ t1.1.

Fixpoint all_disjoint (q : list task) : Prop :=
  match q with
  | [] => True
  | t :: q' => Forall (disjoint t) q' ∧ all_disjoint q'
  end.

(** [t'] lies inside [t]. *)
Definition within (t t' : task) : Prop :=
  t.1 ≤ t'.1 ∧ t'.1 ≤ t'.2 ∧ t'.2 ≤ t.2.

(** Positions [i] and [j] are both covered by one queued task. *)
Definition same_pending (q : list task) (i j : nat) : Prop :=
  ∃ t, t ∈ q ∧ t.1 ≤ i ∧ j < t.2.

(** Twice the number of elements still queued, plus the number of tasks. *)
Definition measure (q : list task) : nat :=
  sum_list_with (λ t : task, 2 * (t.2 - t.1) + 1) q.

Lemma disjoint_sym t1 t2 : disjoint t1 t2 → disjoint t2 t1.
Proof. unfold disjoint. lia. Qed.

Lemma all_disjoint_app q1 q2 :
  all_disjoint (q1 ++ q2) ↔
  all_disjoint q1 ∧ all_disjoint q2 ∧
  ∀ t1 t2, t1 ∈ q1 → t2 ∈ q2 → disjoint t1 t2.
Proof.
  induction q1 as [|t q1 IH]; simpl.
  - split; [intros; split_and!; [done..|]|tauto].
    intros ?? []%elem_of_nil.
  - rewrite Forall_app, IH. split.
    + intros ([H1 H2] & ? & ? & H3). split_and!; [done..|].
      intros t1 t2 [->|?]%elem_of_cons ?; [|by apply H3].
      rewrite Forall_forall in H2. by apply H2.
    + intros ((? & ?) & ? & H3). split_and!; [done| |done..|].
      * apply Forall_forall. intros t2 ?. apply H3; [left|done].
      * intros ????. apply H3; [by right|done].
Qed.

Lemma all_disjoint_middle q1 t q2 :
  all_disjoint (q1 ++ t :: q2) →
  all_disjoint (q1 ++ q2) ∧ ∀ t', t' ∈ q1 ++ q2 → disjoint t t'.
Proof.
  rewrite !all_disjoint_app. simpl. intros (? & [Ht ?] & H3).
  split; [split_and!; [done..|]|].
  - intros ?? ??. apply H3; [done|by right].
  - intros t' [?|?]%elem_of_app.
    + apply disjoint_sym, H3; [done|left].
    + rewrite Forall_forall in Ht. by apply Ht.
Qed.

Lemma measure_app q1 q2 : measure (q1 ++ q2) = measure q1 + measure q2.
Proof. apply sum_list_with_app. Qed.

Lemma measure_cons t q : measure (t :: q) = 2 * (t.2 - t.1) + 1 + measure q.
Proof. done. Qed.

(** *** One run of [quick_sort] *)

Section quick_sort_facts.
Context {A : Type} `{!StdAlgorithms A} (Hstd : Conforming A).
Context (cmp : A → A → bool).
Implicit Types (arr r : list A) (t : task) (q : list task).

(** Where an element of the partitioned range stands relative to the
    pivot, by its position. *)
Definition placed (pivot : A) (middle1 middle2 : nat) (i : nat) (x : A)
  : Prop :=
  if decide (i < middle1) then cmp x pivot = true
  else if decide (i < middle2)
       then cmp x pivot = false ∧ cmp pivot x = false
       else cmp x pivot = false ∧ cmp pivot x = true.

Lemma quick_sort_partition chunk_size begin_ end_ arr :
  (∀ x, cmp x x = false) →
  begin_ ≤ end_ ≤ length arr →
  (chunk_size < N.of_nat (end_ - begin_))%N → 1 < end_ - begin_ →
  ∃ pivot r middle1 middle2,
    arr !! (begin_ + (end_ - begin_) / 2) = Some pivot ∧
    quick_sort (Some (chunk_size, cmp)) (begin_, end_) arr
      = Returned (splice begin_ end_ r arr,
                  [(begin_, middle1); (middle2, end_)]) ∧
    r ≡ₚ range_of begin_ end_ arr ∧
    begin_ ≤ middle1 ∧ middle1 < middle2 ∧ middle2 ≤ end_ ∧
    (∃ i, middle1 ≤ begin_ + i < middle2 ∧ r !! i = Some pivot) ∧
    ∀ i x, r !! i = Some x → placed pivot middle1 middle2 (begin_ + i) x.
Proof.
  intros Hirr Hbe Hcs Hsz.
  destruct (lookup_lt_is_Some_2 arr (begin_ + (end_ - begin_) / 2))
    as [pivot Hpivot].
  { pose proof (Nat.div_lt (end_ - begin_) 2). lia. }
  unfold quick_sort. rewrite decide_False by lia.
  rewrite decide_True by done. rewrite Hpivot.
  set (rng := range_of begin_ end_ arr).
  set (p1 := std_partition (λ em, cmp em pivot) rng).
  assert (length rng = end_ - begin_) as Hlen
    by (apply length_range_of; lia).
  pose proof (std_partition_perm Hstd (λ em, cmp em pivot) rng) as Hp1.
  pose proof (std_partition_bound Hstd (λ em, cmp em pivot) rng) as Hk1.
  pose proof (std_partition_left Hstd (λ em, cmp em pivot) rng) as Hl1.
  pose proof (std_partition_right Hstd (λ em, cmp em pivot) rng) as Hr1.
  fold p1 in Hp1, Hk1, Hl1, Hr1.
  assert (length p1.1 = end_ - begin_) as Hlen1
    by (by rewrite Hp1).
  rewrite range_of_tail_splice by lia.
  replace (begin_ + p1.2 - begin_) with p1.2 by lia.
  set (p2 := std_partition (λ em, negb (cmp pivot em)) (drop p1.2 p1.1)).
  pose proof (std_partition_perm Hstd (λ em, negb (cmp pivot em))
                                 (drop p1.2 p1.1)) as Hp2.
  pose proof (std_partition_bound Hstd (λ em, negb (cmp pivot em))
                                  (drop p1.2 p1.1)) as Hk2.
  pose proof (std_partition_left Hstd (λ em, negb (cmp pivot em))
                                 (drop p1.2 p1.1)) as Hl2.
  pose proof (std_partition_right Hstd (λ em, negb (cmp pivot em))
                                  (drop p1.2 p1.1)) as Hr2.
  fold p2 in Hp2, Hk2, Hl2, Hr2. rewrite length_drop in Hk2.
  assert (length p2.1 = end_ - begin_ - p1.2) as Hlen2
    by (by rewrite Hp2, length_drop, Hlen1).
  rewrite splice_splice by lia.
  replace (begin_ + p1.2 - begin_) with p1.2 by lia.
  rewrite Forall_forall in Hl1, Hr1, Hl2, Hr2.
  (* the pivot ends up in the middle section *)
  assert (pivot ∈ take p2.2 p2.1) as Hmid.
  { assert (pivot ∈ rng) as Hin.
    { apply elem_of_range_of. eexists. split; [|done].
      pose proof (Nat.div_lt (end_ - begin_) 2). lia. }
    rewrite <-Hp1, <-(take_drop p1.2 p1.1), elem_of_app in Hin.
    destruct Hin as [Hin|Hin].
    { apply Hl1 in Hin. by rewrite Hirr in Hin. }
    rewrite <-Hp2, <-(take_drop p2.2 p2.1), elem_of_app in Hin.
    destruct Hin as [Hin|Hin]; [done|].
    apply Hr2 in Hin. by rewrite Hirr in Hin. }
  assert (0 < p2.2) as Hpos.
  { destruct p2.2; [|lia]. by apply elem_of_nil in Hmid. }
  exists pivot, (take p1.2 p1.1 ++ p2.1), (begin_ + p1.2),
         (begin_ + p1.2 + p2.2).
  assert (length (take p1.2 p1.1) = p1.2) as Hlt
    by (rewrite length_take; lia).
  split_and!; [done|done| |lia..| |].
  { by rewrite Hp2, take_drop. }
  { apply elem_of_take in Hmid as (i & Hi & ?). exists (p1.2 + i).
    split; [lia|]. rewrite lookup_app_r by lia.
    rewrite Hlt. by replace (p1.2 + i - p1.2) with i by lia. }
  intros i x Hx. unfold placed.
  apply lookup_app_Some in Hx as [Hx|[? Hx]].
  { apply lookup_lt_Some in Hx as Hi. rewrite Hlt in Hi.
    rewrite decide_True by lia.
    apply Hl1. by eapply list_elem_of_lookup_2. }
  rewrite Hlt in *. rewrite decide_False by lia.
  assert (cmp x pivot = false) as Hxp.
  { apply Hr1. rewrite <-Hp2. by eapply list_elem_of_lookup_2. }
  rewrite <-(take_drop p2.2 p2.1) in Hx.
  assert (length (take p2.2 p2.1) = p2.2) as Hlt2
    by (rewrite length_take; lia).
  apply lookup_app_Some in Hx as [Hx|[? Hx]].
  - apply lookup_lt_Some in Hx as Hi. rewrite Hlt2 in Hi.
    rewrite decide_True by lia. split; [done|].
    apply list_elem_of_lookup_2, Hl2 in Hx. by destruct (cmp pivot x).
  - rewrite Hlt2 in *. rewrite decide_False by lia. split; [done|].
    apply list_elem_of_lookup_2, Hr2 in Hx. by destruct (cmp pivot x).
Qed.
End quick_sort_facts.

(** *** What a task achieves, and the invariant of the pool *)

Section sort_invariant.
Context {A : Type} `{!StdAlgorithms A} (Hstd : Conforming A).
Context (cmp : A → A → bool) (Hswo : StrictWeakOrder cmp).
Context (chunk_size : N).
Implicit Types (arr r : list A) (t : task) (q : list task).

Local Abbreviation env := (Some (chunk_size, cmp)).

Record task_ok t arr arr' (pushed : list task) : Prop := {
  ok_content :
    ∃ r, r ≡ₚ range_of t.1 t.2 arr ∧ arr' = splice t.1 t.2 r arr;
  ok_within : Forall (within t) pushed;
  ok_disjoint : all_disjoint pushed;
  ok_measure : measure pushed < measure [t];
  ok_order i j x y :
    t.1 ≤ i → i < j → j < t.2 →
    arr' !! i = Some x → arr' !! j = Some y →
    ¬ same_pending pushed i j → cmp y x = false
}.

Lemma quick_sort_ok t arr :
  t.1 ≤ t.2 ≤ length arr →
  ∃ arr' pushed,
    quick_sort env t arr = Returned (arr', pushed) ∧
    task_ok t arr arr' pushed.
Proof.
  destruct t as [b e]; cbn [fst snd]. intros Hbe.
  destruct (decide (e - b ≤ 1)) as [Hsz|Hsz].
  { exists arr, []. split.
    { unfold quick_sort. by rewrite ?decide_True by done. }
    split; simpl.
    - exists (range_of b e arr). by rewrite splice_range_of.
    - constructor.
    - done.
    - unfold measure; simpl; lia.
    - intros; lia. }
  destruct (decide (chunk_size < N.of_nat (e - b))%N) as [Hcs|Hcs].
  - destruct (quick_sort_partition Hstd cmp chunk_size b e arr)
      as (pivot & r & m1 & m2 & _ & Hq & Hr & ? & ? & ? & _ & Hplaced);
      [apply Hswo|done|done|lia|].
    assert (length r = e - b) as Hlen
      by (rewrite Hr; apply length_range_of; lia).
    eexists _, _. split; [exact Hq|]. split; simpl.
    + by exists r.
    + repeat constructor; simpl; lia.
    + cbn [all_disjoint].
      split; [constructor; [left; simpl; lia|constructor]|].
      split; [constructor|done].
    + unfold measure; simpl; lia.
    + intros i j x y ??? Hx Hy Hpend.
      rewrite splice_lookup_mid in Hx, Hy by lia.
      apply Hplaced in Hx, Hy. unfold placed in Hx, Hy.
      replace (b + (i - b)) with i in Hx by lia.
      replace (b + (j - b)) with j in Hy by lia.
      destruct (cmp y x) eqn:Hyx; [exfalso|done].
      repeat case_decide; destruct_and?;
        first
          [ lia
          | apply Hpend; exists (b, m1); split; [left|simpl; lia]
          | apply Hpend; exists (m2, e); split; [right; left|simpl; lia]
          | assert (cmp y pivot = true)
              by (by apply (swo_trans _ Hswo y x pivot)); congruence
          | assert (cmp pivot x = true)
              by (by apply (swo_trans _ Hswo pivot y x)); congruence
          | destruct (swo_incomp _ Hswo x pivot y); congruence ].
  - eexists _, []. split.
    { unfold quick_sort. by rewrite ?decide_False by done. }
    pose proof (std_sort_perm Hstd cmp (range_of b e arr)) as Hperm.
    assert (length (std_sort cmp (range_of b e arr)) = e - b) as Hlen
      by (rewrite Hperm; apply length_range_of; lia).
    split; simpl.
    + by eexists.
    + constructor.
    + done.
    + unfold measure; simpl; lia.
    + intros i j x y ??? Hx Hy _.
      rewrite splice_lookup_mid in Hx, Hy by lia.
      eapply (nondecreasing_pairwise cmp Hswo _ (i - b) (j - b));
        [by apply std_sort_sorted|lia|done..].
Qed.

(** The array is a permutation of the input, the queued ranges are
    pairwise disjoint and inside the array, and two positions that no
    queued task covers together are already in order. *)
Record sort_inv (l0 : list A) (st : pool_state A) : Prop := {
  inv_perm : cells st ≡ₚ l0;
  inv_bounds :
    Forall (λ t : task, t.1 ≤ t.2 ≤ length (cells st)) (task_queue st);
  inv_disjoint : all_disjoint (task_queue st);
  inv_order i j x y :
    i < j → cells st !! i = Some x → cells st !! j = Some y →
    ¬ same_pending (task_queue st) i j → cmp y x = false
}.

Lemma sort_inv_init l : sort_inv l (PoolState l [(0, length l)]).
Proof.
  split; simpl.
  - done.
  - repeat constructor; simpl; lia.
  - by repeat constructor.
  - intros i j x y ? _ Hy Hpend. destruct Hpend.
    apply lookup_lt_Some in Hy. exists (0, length l).
    split; [left|simpl; lia].
Qed.

Lemma task_ok_preserves l0 arr q1 t q2 arr' pushed :
  sort_inv l0 (PoolState arr (q1 ++ t :: q2)) →
  task_ok t arr arr' pushed →
  sort_inv l0 (PoolState arr' (q1 ++ q2 ++ pushed)).
Proof.
  intros [Hperm Hbounds Hdisj Hord] [(r & Hr & ->) Hin Hpd _ Hok].
  simpl in *.
  rewrite Forall_app, Forall_cons in Hbounds.
  destruct Hbounds as (Hb1 & Hbt & Hb2).
  apply all_disjoint_middle in Hdisj as [Hdisj Hcross].
  assert (length r = t.2 - t.1) as Hlen
    by (rewrite Hr; apply length_range_of; lia).
  assert (length (splice t.1 t.2 r arr) = length arr) as Hlen'
    by (by apply length_splice).
  (* an element found inside the range was somewhere inside it before *)
  assert (∀ k z, t.1 ≤ k < t.2 → splice t.1 t.2 r arr !! k = Some z →
                 ∃ k', t.1 ≤ k' < t.2 ∧ arr !! k' = Some z) as Hinside.
  { intros k z ? Hz. rewrite splice_lookup_mid in Hz by lia.
    apply list_elem_of_lookup_2 in Hz. rewrite Hr in Hz.
    by apply elem_of_range_of in Hz. }
  assert (∀ k, ¬ t.1 ≤ k < t.2 →
               splice t.1 t.2 r arr !! k = arr !! k) as Houtside.
  { intros k ?. destruct (decide (k < t.1)).
    - by apply splice_lookup_lt; lia.
    - by apply splice_lookup_ge; lia. }
  split; simpl.
  - by rewrite splice_perm.
  - rewrite Hlen', !Forall_app. split_and!; [done..|].
    eapply Forall_impl; [exact Hin|]. unfold within. intros; lia.
  - rewrite app_assoc, all_disjoint_app. split_and!; [done..|].
    intros t1 t2 Ht1 Ht2. apply Hcross in Ht1.
    rewrite Forall_forall in Hin. apply Hin in Ht2.
    unfold disjoint, within in *. lia.
  - intros i j x y Hij Hx Hy Hpend.
    assert (∀ k1 k2, ¬ (t.1 ≤ k1 ∧ k2 < t.2) →
              ¬ same_pending (q1 ++ q2) k1 k2 →
              ¬ same_pending (q1 ++ t :: q2) k1 k2) as Hold.
    { intros k1 k2 Ht Hq (t0 & Ht0 & ?).
      rewrite elem_of_app, elem_of_cons in Ht0.
      destruct Ht0 as [?|[->|?]]; [|done|];
        apply Hq; exists t0; rewrite elem_of_app; tauto. }
    assert (∀ k1 k2, t.1 ≤ k1 < t.2 ∨ t.1 ≤ k2 < t.2 → k1 < k2 →
              ¬ (t.1 ≤ k1 ∧ k2 < t.2) →
              ¬ same_pending (q1 ++ q2) k1 k2) as Hcut.
    { intros k1 k2 ??? (t0 & Ht0 & ?). apply Hcross in Ht0.
      unfold disjoint in Ht0. lia. }
    destruct (decide (t.1 ≤ i < t.2)) as [Hi|Hi],
             (decide (t.1 ≤ j < t.2)) as [Hj|Hj].
    + eapply (Hok i j); [lia..|done|done|].
      intros (t0 & ? & ?). apply Hpend. exists t0.
      rewrite !elem_of_app. tauto.
    + apply Hinside in Hx as (i' & ? & Hx); [|done].
      rewrite Houtside in Hy by done.
      eapply (Hord i' j); [lia|done..|].
      apply Hold; [lia|]. apply Hcut; lia.
    + apply Hinside in Hy as (j' & ? & Hy); [|done].
      rewrite Houtside in Hx by done.
      eapply (Hord i j'); [lia|done..|].
      apply Hold; [lia|]. apply Hcut; lia.
    + rewrite Houtside in Hx, Hy by done.
      eapply (Hord i j); [done..|].
      apply Hold; [lia|].
      intros (t0 & ? & ?). apply Hpend. exists t0.
      rewrite !elem_of_app in *. tauto.
Qed.

Lemma sort_inv_step l0 st st' :
  sort_inv l0 st → pool_step env st st' →
  sort_inv l0 st' ∧ measure (task_queue st') < measure (task_queue st).
Proof.
  intros Hinv Hstep. destruct Hstep as [arr q1 t q2 arr' pushed Hq].
  pose proof (inv_bounds _ _ Hinv) as Hb. simpl in Hb.
  rewrite Forall_app, Forall_cons in Hb. destruct Hb as (_ & Hb & _).
  destruct (quick_sort_ok t arr Hb) as (? & ? & Hq' & Hok).
  rewrite Hq in Hq'. simplify_eq. split.
  - by eapply task_ok_preserves.
  - simpl. pose proof (ok_measure _ _ _ _ Hok) as Hm.
    rewrite !measure_app, !measure_cons in *. unfold measure in Hm at 2.
    simpl in Hm. lia.
Qed.

Lemma sort_inv_progress l0 st :
  sort_inv l0 st → task_queue st ≠ [] → ∃ st', pool_step env st st'.
Proof.
  intros Hinv Hne. destruct st as [arr [|t q]]; [done|].
  pose proof (inv_bounds _ _ Hinv) as Hb. simpl in Hb.
  apply Forall_cons in Hb as [Hb _].
  destruct (quick_sort_ok t arr Hb) as (arr' & pushed & Hq & _).
  eexists. by apply (step_task _ arr [] t q).
Qed.

Lemma sort_inv_final l0 st :
  sort_inv l0 st → task_queue st = [] →
  cells st ≡ₚ l0 ∧ nondecreasing cmp (cells st).
Proof.
  intros [Hperm _ _ Hord] Hq. split; [done|].
  intros i x y Hx Hy. eapply (Hord i (S i)); [lia|done..|].
  rewrite Hq. intros (? & []%elem_of_nil & _).
Qed.
End sort_invariant.

(** *** Runs of the pool *)

Section sort_runs.
Context {A : Type} `{!StdAlgorithms A} (Hstd : Conforming A).
Context (cmp : A → A → bool).
Context (chunk_size : N).
Implicit Types (arr r : list A) (t : task) (q : list task).

Local Abbreviation env := (Some (chunk_size, cmp)).

(** With an irreflexive comparison every task returns, leaves the length
    of the array alone and pushes strictly less work than it was. *)
Lemma quick_sort_shape t arr :
  (∀ x, cmp x x = false) → t.1 ≤ t.2 ≤ length arr →
  ∃ arr' pushed,
    quick_sort env t arr = Returned (arr', pushed) ∧
    length arr' = length arr ∧
    Forall (within t) pushed ∧
    measure pushed < measure [t].
Proof.
  destruct t as [b e]; cbn [fst snd]. intros Hirr Hbe.
  destruct (decide (e - b ≤ 1)) as [Hsz|Hsz].
  { exists arr, []. split_and!; [|done|constructor|unfold measure; simpl; lia].
    unfold quick_sort. by rewrite ?decide_True by done. }
  destruct (decide (chunk_size < N.of_nat (e - b))%N) as [Hcs|Hcs].
  - destruct (quick_sort_partition Hstd cmp chunk_size b e arr)
      as (pivot & r & m1 & m2 & _ & Hq & Hr & ? & ? & ? & _);
      [done|done|done|lia|].
    eexists _, _. split_and!; [exact Hq| | |].
    + apply length_splice; [done|]. rewrite Hr. apply length_range_of; lia.
    + repeat constructor; simpl; lia.
    + unfold measure; simpl; lia.
  - eexists _, []. split_and!; [| |constructor|unfold measure; simpl; lia].
    { unfold quick_sort. by rewrite ?decide_False by done. }
    apply length_splice; [done|].
    rewrite (std_sort_perm Hstd). apply length_range_of; lia.
Qed.

Definition in_bounds (st : pool_state A) : Prop :=
  Forall (λ t : task, t.1 ≤ t.2 ≤ length (cells st)) (task_queue st).

Lemma in_bounds_step st st' :
  (∀ x, cmp x x = false) → in_bounds st → pool_step env st st' →
  in_bounds st' ∧ measure (task_queue st') < measure (task_queue st).
Proof.
  intros Hirr Hb Hstep. destruct Hstep as [arr q1 t q2 arr' pushed Hq].
  unfold in_bounds in *; simpl in *.
  rewrite Forall_app, Forall_cons in Hb. destruct Hb as (Hb1 & Hbt & Hb2).
  destruct (quick_sort_shape t arr Hirr Hbt) as (? & ? & Hq' & Hlen & Hin & ?).
  rewrite Hq in Hq'. simplify_eq. split.
  - rewrite Hlen, !Forall_app. split_and!; [done..|].
    eapply Forall_impl; [exact Hin|]. unfold within; intros; lia.
  - rewrite !measure_app, !measure_cons in *.
    unfold measure in H at 2. simpl in H. lia.
Qed.

(** No run of the pool is longer than the measure of where it started. *)
Lemma pool_steps_bounded n st st' :
  (∀ x, cmp x x = false) → in_bounds st →
  nsteps (pool_step env) n st st' →
  in_bounds st' ∧ n + measure (task_queue st') ≤ measure (task_queue st).
Proof.
  intros Hirr Hb Hn. induction Hn as [|n st st1 st' Hstep _ IH].
  - split; [done|lia].
  - destruct (in_bounds_step _ _ Hirr Hb Hstep) as [Hb1 ?].
    destruct (IH Hb1). split; [done|lia].
Qed.

Context (Hswo : StrictWeakOrder cmp).

Lemma sort_inv_rtc l0 st st' :
  sort_inv cmp l0 st → rtc (pool_step env) st st' → sort_inv cmp l0 st'.
Proof.
  intros Hinv Hrtc. induction Hrtc as [|st st1 st' Hstep _ IH]; [done|].
  apply IH. by eapply sort_inv_step.
Qed.

(** The worker that takes the tasks in queue order drains the queue
    before the fuel runs out. *)
Lemma run_pool_drains fuel l0 arr q :
  sort_inv cmp l0 (PoolState arr q) → measure q ≤ fuel →
  ∃ arr', run_pool fuel env arr q = Some (Returned arr') ∧
          rtc (pool_step env) (PoolState arr q) (PoolState arr' []).
Proof.
  revert arr q. induction fuel as [|fuel IH]; intros arr q Hinv Hfuel.
  - destruct q as [|t q]; [by exists arr|].
    rewrite measure_cons in Hfuel. lia.
  - destruct q as [|t q]; [by exists arr|].
    pose proof (inv_bounds _ _ _ Hinv) as Hb. simpl in Hb.
    apply Forall_cons in Hb as [Hb _].
    destruct (quick_sort_ok Hstd cmp Hswo chunk_size t arr Hb)
      as (arr1 & pushed & Hq & _).
    assert (pool_step env (PoolState arr (t :: q))
                          (PoolState arr1 (q ++ pushed))) as Hstep
      by (by apply (step_task _ arr [] t q)).
    destruct (sort_inv_step Hstd cmp Hswo chunk_size _ _ _ Hinv Hstep)
      as [Hinv1 Hm]. cbn [task_queue] in Hm.
    destruct (IH arr1 (q ++ pushed) Hinv1) as (arr' & Hrun & Hrtc); [lia|].
    exists arr'. split; [by simpl; rewrite Hq|].
    by eapply rtc_l.
Qed.
End sort_runs.

(** *** The reference algorithms conform *)

Section reference_facts.
Context {A : Type}.
Implicit Types (l : list A) (cmp : A → A → bool).

Lemma swo_asym cmp x y :
  StrictWeakOrder cmp → cmp x y = true → cmp y x = false.
Proof.
  intros Hswo Hxy. destruct (cmp y x) eqn:Hyx; [|done].
  by rewrite <-(swo_irrefl _ Hswo x), (swo_trans _ Hswo x y x).
Qed.

Lemma Sorted_nondecreasing cmp l :
  Sorted (λ a b, cmp b a = false) l → nondecreasing cmp l.
Proof.
  induction 1 as [|x l _ IH Hhd]; intros i a b Ha Hb; [done|].
  destruct i as [|i]; simpl in *.
  - simplify_eq. destruct Hhd; simplify_eq/=. done.
  - by eapply IH.
Qed.

Lemma insert_sorted_perm cmp x l : insert_sorted cmp x l ≡ₚ x :: l.
Proof.
  induction l as [|y l IH]; simpl; [done|].
  destruct (cmp x y); [done|]. rewrite IH. apply Permutation_swap.
Qed.

Lemma insert_sorted_HdRel cmp x y l :
  HdRel (λ a b, cmp b a = false) y l → cmp x y = false →
  HdRel (λ a b, cmp b a = false) y (insert_sorted cmp x l).
Proof.
  intros [|z l' Hz] ?; simpl; [by constructor|].
  destruct (cmp x z); by constructor.
Qed.

Lemma insert_sorted_Sorted cmp x l :
  StrictWeakOrder cmp →
  Sorted (λ a b, cmp b a = false) l →
  Sorted (λ a b, cmp b a = false) (insert_sorted cmp x l).
Proof.
  intros Hswo. induction 1 as [|y l Hl IH Hhd]; simpl.
  { by repeat constructor. }
  destruct (cmp x y) eqn:Hxy.
  - repeat constructor; [done..|]. by apply swo_asym.
  - constructor; [done|]. by apply insert_sorted_HdRel.
Qed.

Lemma reference_conforming : @Conforming A reference_algorithms.
Proof.
  split; simpl; unfold stable_partition; simpl.
  - intros pred l. apply filter_app_complement.
  - intros pred l. apply length_filter.
  - intros pred l. rewrite take_app_length.
    apply Forall_forall. by intros x [? _]%list_elem_of_filter.
  - intros pred l. rewrite drop_app_length.
    apply Forall_forall. intros x [? _]%list_elem_of_filter.
    by destruct (pred x).
  - intros cmp l. induction l as [|x l IH]; simpl; [done|].
    by rewrite insert_sorted_perm, IH.
  - intros cmp l Hswo. apply Sorted_nondecreasing.
    induction l as [|x l IH]; simpl; [constructor|].
    by apply insert_sorted_Sorted.
Qed.

Lemma ltb_strict_weak_order : StrictWeakOrder N.ltb.
Proof.
  split; intros *; rewrite ?N.ltb_lt, ?N.ltb_ge; lia.
Qed.
End reference_facts.

(** *** The claims about [sort] *)

Section sort_claims.
Context {A : Type} `{!StdAlgorithms A}.
Implicit Types (arr : list A) (cmp : A → A → bool).

(** Once a call has initialised the static closure, a later call on a
    range of two or more elements reads the dead locals of that call. *)
Lemma sort_later_call fuel w captured arr cmp threads_amount :
  quick_sort_static w = Some captured → captured ≠ next_call w →
  SizeT.mul threads_amount 8 ≠ 0%N → 1 < length arr → 0 < fuel →
  (sort fuel w arr cmp threads_amount).2
    = Some (Undefined DanglingReference).
Proof.
  intros Hw Hc Hdiv Hlen Hfuel. unfold sort.
  rewrite decide_False by done. rewrite Hw. simpl.
  unfold deref. rewrite decide_False by done.
  destruct fuel as [|fuel]; [lia|]. simpl.
  by rewrite decide_False by lia.
Qed.

(** C10.  A partition step, that is [quick_sort] on a range of two or
    more elements that is longer than [chunk_size], with a comparison
    that is irreflexive as [sort] requires: the section
    [[middle1, middle2)] holds the pivot, so it is not empty, and all it
    holds is equivalent to the pivot; both ranges pushed are strictly
    shorter than the range of the step; and the tasks that descend from
    a range are finitely many, at most twice its length plus one. *)
Theorem partition_step_shrinks cmp chunk_size begin_ end_ arr :
  Conforming A → (∀ x, cmp x x = false) →
  begin_ ≤ end_ ≤ length arr → 1 < end_ - begin_ →
  (chunk_size < N.of_nat (end_ - begin_))%N →
  (∃ pivot arr' middle1 middle2,
    arr !! (begin_ + (end_ - begin_) / 2) = Some pivot ∧
    quick_sort (Some (chunk_size, cmp)) (begin_, end_) arr
      = Returned (arr', [(begin_, middle1); (middle2, end_)]) ∧
    (∃ i, middle1 ≤ i < middle2 ∧ arr' !! i = Some pivot) ∧
    (∀ i x, middle1 ≤ i < middle2 → arr' !! i = Some x →
            cmp x pivot = false ∧ cmp pivot x = false) ∧
    middle1 - begin_ < end_ - begin_ ∧
    end_ - middle2 < end_ - begin_) ∧
  (∀ n st,
    nsteps (pool_step (Some (chunk_size, cmp))) n
           (PoolState arr [(begin_, end_)]) st →
    n ≤ 2 * (end_ - begin_) + 1).
Proof.
  intros Hstd Hirr Hbe Hsz Hcs. split.
  - destruct (quick_sort_partition Hstd cmp chunk_size begin_ end_ arr)
      as (pivot & r & m1 & m2 & Hp & Hq & Hr & ? & ? & ? & Hmid & Hplaced);
      [done..|].
    assert (length r = end_ - begin_) as Hlen
      by (rewrite Hr; apply length_range_of; lia).
    exists pivot, (splice begin_ end_ r arr), m1, m2.
    split_and!; [done|done| | |lia..].
    + destruct Hmid as (i & ? & Hi). exists (begin_ + i). split; [done|].
      rewrite splice_lookup_mid by lia.
      by replace (begin_ + i - begin_) with i by lia.
    + intros i x ? Hx. rewrite splice_lookup_mid in Hx by lia.
      apply Hplaced in Hx. unfold placed in Hx.
      replace (begin_ + (i - begin_)) with i in Hx by lia.
      by rewrite decide_False, decide_True in Hx by lia.
  - intros n st Hn.
    eapply pool_steps_bounded in Hn as [_ Hn]; [|done..|].
    + unfold measure in Hn; simpl in Hn. lia.
    + repeat constructor; simpl; lia.
Qed.
End sort_claims.

(** *** Runs on concrete arrays *)

Section sort_examples.
Local Existing Instance reference_algorithms.

(** C9 fails on the code: the second call of [sort] runs the closure the
    first call left in the static, whose captured references are dead. *)
Lemma sort_second_call_dangling :
  (sort 5 program_start [2; 1]%N N.ltb 1).2 = Some (Returned [1; 2]%N) ∧
  (sort 5 (sort 5 program_start [2; 1]%N N.ltb 1).1 [1; 2]%N N.ltb 1).2
    = Some (Undefined DanglingReference).
Proof. split; by vm_compute. Qed.

Lemma partition_step_shrinks_witness :
  ∃ pivot arr' middle1 middle2,
    [3; 1; 2; 2]%N !! (0 + (4 - 0) / 2) = Some pivot ∧
    quick_sort (Some (0%N, N.ltb)) (0, 4) [3; 1; 2; 2]%N
      = Returned (arr', [(0, middle1); (middle2, 4)]) ∧
    (∃ i, middle1 ≤ i < middle2 ∧ arr' !! i = Some pivot) ∧
    (∀ i x, middle1 ≤ i < middle2 → arr' !! i = Some x →
            N.ltb x pivot = false ∧ N.ltb pivot x = false) ∧
    middle1 - 0 < 4 - 0 ∧ 4 - middle2 < 4 - 0.
Proof.
  refine (proj1 (partition_step_shrinks N.ltb 0 0 4 [3; 1; 2; 2]%N
                   reference_conforming _ _ _ _)).
  - intros x. apply N.ltb_irrefl.
  - simpl; lia.
  - lia.
  - simpl; lia.
Defined.
End sort_examples.

(** *** Further properties of [sort] *)

Section sort_further.
Context {A : Type} `{!StdAlgorithms A}.
Implicit Types (arr : list A) (cmp less : A → A → bool).

(** Two arrangements of the same elements that are both in order under
    a strict total order are the same array. *)
Lemma sorted_arrangement_unique less arr1 arr2 :
  StrictWeakOrder less →
  (∀ x y, less x y = false → less y x = false → x = y) →
  nondecreasing less arr1 → nondecreasing less arr2 →
  arr1 ≡ₚ arr2 → arr1 = arr2.
Proof.
  intros Hswo Htotal H1 H2 Hperm.
  set (R := λ a b : A, less b a = false).
  assert (Transitive R) as Htrans.
  { intros x y z Hxy Hyz. by eapply (not_before_trans less Hswo x y z). }
  assert (AntiSymm (=) R) as Hanti.
  { intros x y Hxy Hyx. by apply Htotal. }
  assert (∀ l, nondecreasing less l → Sorted R l) as Hsorted.
  { clear. induction l as [|x l IH]; intros Hl; constructor.
    - apply IH. intros i a b Ha Hb. by apply (Hl (S i)).
    - destruct l as [|y l]; constructor. by apply (Hl 0). }
  by apply (Sorted_unique R); [apply Hsorted..|].
Qed.

(** Once the tasks of a call have all run, in whatever order, the array
    is a permutation of the input in non-decreasing order. *)
Lemma drained_run arr cmp chunk_size st :
  Conforming A → StrictWeakOrder cmp →
  rtc (pool_step (Some (chunk_size, cmp)))
      (PoolState arr [(0, length arr)]) st →
  task_queue st = [] →
  cells st ≡ₚ arr ∧ nondecreasing cmp (cells st).
Proof.
  intros Hstd Hswo Hrtc Hq.
  apply sort_inv_final; [|done].
  eapply sort_inv_rtc; [done..|apply sort_inv_init|done].
Qed.

(** X9.  What the tasks of one call of [sort] achieve.  Once they have
    all run, in whatever order the pool ran them, the range holds a
    permutation of the input in non-decreasing order; and for a strict
    total order, as [operator<] is on the integers of [test_sort_rand], it
    holds exactly the array that [std::sort] gives.  Whether the pool
    runs them all, and whether the call returns, is not said here. *)
Theorem tasks_sort_the_range arr cmp chunk_size st :
  Conforming A → StrictWeakOrder cmp →
  rtc (pool_step (Some (chunk_size, cmp)))
      (PoolState arr [(0, length arr)]) st →
  task_queue st = [] →
  cells st ≡ₚ arr ∧ nondecreasing cmp (cells st) ∧
  ((∀ x y, cmp x y = false → cmp y x = false → x = y) →
   cells st = std_sort cmp arr).
Proof.
  intros Hstd Hswo Hrtc Hq.
  destruct (drained_run arr cmp chunk_size st Hstd Hswo Hrtc Hq)
    as [Hperm Hord].
  split_and!; [done..|]. intros Htotal.
  apply (sorted_arrangement_unique cmp); [done..| |].
  - by apply std_sort_sorted.
  - by rewrite Hperm, (std_sort_perm Hstd).
Qed.

(** X19.  For a strict total order, the tasks of a call of [sort] on a
    range that is already in order leave it as it was, once they have all
    run, in whatever order. *)
Theorem sort_keeps_sorted arr less chunk_size st :
  Conforming A → StrictWeakOrder less →
  (∀ x y, less x y = false → less y x = false → x = y) →
  nondecreasing less arr →
  rtc (pool_step (Some (chunk_size, less)))
      (PoolState arr [(0, length arr)]) st →
  task_queue st = [] →
  cells st = arr.
Proof.
  intros Hstd Hswo Htotal Harr Hrtc Hq.
  destruct (drained_run arr less chunk_size st Hstd Hswo Hrtc Hq)
    as [Hperm Hord].
  by apply (sorted_arrangement_unique less).
Qed.

(** X10.  The tasks of one call never touch the same element.  In every
    state a run of the pool reaches, the array has kept its length, the
    queued ranges lie inside it and are pairwise disjoint, and each
    queued task, when run, returns, rearranges the elements of its own
    range only, and pushes ranges inside its own. *)
Theorem tasks_keep_to_their_ranges arr cmp chunk_size st :
  Conforming A → StrictWeakOrder cmp →
  rtc (pool_step (Some (chunk_size, cmp)))
      (PoolState arr [(0, length arr)]) st →
  length (cells st) = length arr ∧
  Forall (λ t : task, t.1 ≤ t.2 ≤ length arr) (task_queue st) ∧
  all_disjoint (task_queue st) ∧
  ∀ t, t ∈ task_queue st →
    ∃ arr' pushed,
      quick_sort (Some (chunk_size, cmp)) t (cells st)
        = Returned (arr', pushed) ∧
      (∀ i, ¬ t.1 ≤ i < t.2 → arr' !! i = cells st !! i) ∧
      range_of t.1 t.2 arr' ≡ₚ range_of t.1 t.2 (cells st) ∧
      Forall (within t) pushed.
Proof.
  intros Hstd Hswo Hrtc.
  assert (sort_inv cmp arr st) as Hinv.
  { eapply sort_inv_rtc; [done..|apply sort_inv_init|done]. }
  pose proof (inv_bounds _ _ _ Hinv) as Hb.
  assert (length (cells st) = length arr) as Hlen
    by (by rewrite (inv_perm _ _ _ Hinv)).
  split_and!; [done|by rewrite <-Hlen|apply (inv_disjoint _ _ _ Hinv)|].
  intros t Ht. rewrite Forall_forall in Hb. specialize (Hb t Ht).
  destruct (quick_sort_ok Hstd cmp Hswo chunk_size t (cells st) Hb)
    as (arr' & pushed & Hq & [(r & Hr & ->) Hin _ _ _]).
  assert (length r = t.2 - t.1) as Hlenr
    by (rewrite Hr; apply length_range_of; lia).
  exists (splice t.1 t.2 r (cells st)), pushed. split_and!; [done| | |done].
  - intros i Hi. destruct (decide (i < t.1)).
    + apply splice_lookup_lt; lia.
    + apply splice_lookup_ge; [done|lia..].
  - rewrite range_of_splice by (done || lia). done.
Qed.
End sort_further.

(** *** Thread counts that divide by zero *)

Section sort_calls.
Context {A : Type} `{!StdAlgorithms A}.
Implicit Types (arr : list A) (cmp : A → A → bool) (w : world).

Lemma size_t_eightfold_zero (threads_amount : N) :
  SizeT.mul threads_amount 8 = 0%N ↔ (threads_amount mod 2 ^ 61 = 0)%N.
Proof.
  unfold SizeT.mul, SizeT.modulus, SizeT.width.
  replace (2 ^ 64)%N with (2 ^ 61 * 8)%N by done.
  rewrite N.Div0.mul_mod_distr_r. lia.
Qed.

Lemma run_pool_divides_by_nothing fuel env arr q :
  run_pool fuel env arr q ≠ Some (Undefined DivisionByZero).
Proof.
  revert arr q. induction fuel as [|fuel IH]; intros arr [|t q]; try done.
  simpl. destruct (quick_sort env t arr) as [[arr' pushed]| |u] eqn:Hq.
  - apply IH.
  - done.
  - intros [= ->]. unfold quick_sort in Hq.
    repeat case_match; simplify_eq.
Qed.

(** X12.  [sort] divides by zero at line 73 exactly when the thread
    count is a multiple of 2^61, zero included, since its eightfold is
    computed in [size_t]; this happens before the range is looked at and
    before the static closure is initialised. *)
Theorem sort_divides_by_zero fuel w arr cmp threads_amount :
  ((sort fuel w arr cmp threads_amount).2 = Some (Undefined DivisionByZero)
   ↔ (threads_amount mod 2 ^ 61 = 0)%N) ∧
  ((sort fuel w arr cmp threads_amount).2 = Some (Undefined DivisionByZero)
   → (sort fuel w arr cmp threads_amount).1 = w).
Proof.
  unfold sort.
  destruct (decide (SizeT.mul threads_amount 8 = 0%N)) as [Hz|Hz]; simpl.
  - split; [|done]. split; [|done]. intros _. by apply size_t_eightfold_zero.
  - split.
    + split.
      * intros Hrun. by apply run_pool_divides_by_nothing in Hrun.
      * intros Hm. by apply size_t_eightfold_zero in Hm.
    + intros Hrun. by apply run_pool_divides_by_nothing in Hrun.
Qed.
End sort_calls.

(** *** Runs that meet the hypotheses *)

Section sort_further_examples.
Local Existing Instance reference_algorithms.

Lemma ltb_total (x y : N) : N.ltb x y = false → N.ltb y x = false → x = y.
Proof. rewrite !N.ltb_ge. lia. Qed.

(** A run of the tasks of a call that drains the queue. *)
Lemma drained_run_exists (arr : list N) :
  ∃ st,
    rtc (pool_step (Some (0%N, N.ltb))) (PoolState arr [(0, length arr)]) st ∧
    task_queue st = [].
Proof.
  destruct (run_pool_drains reference_conforming N.ltb 0
              ltb_strict_weak_order (2 * length arr + 1) arr arr
              [(0, length arr)] (sort_inv_init N.ltb arr))
    as (arr' & _ & Hrtc).
  { unfold measure; simpl; lia. }
  by exists (PoolState arr' []).
Defined.

Lemma tasks_sort_the_range_witness :
  ∃ st,
    rtc (pool_step (Some (0%N, N.ltb)))
        (PoolState [3; 1; 4; 1]%N [(0, 4)]) st ∧
    task_queue st = [] ∧
    cells st ≡ₚ [3; 1; 4; 1]%N ∧ nondecreasing N.ltb (cells st) ∧
    ((∀ x y : N, N.ltb x y = false → N.ltb y x = false → x = y) →
     cells st = std_sort N.ltb [3; 1; 4; 1]%N).
Proof.
  destruct (drained_run_exists [3; 1; 4; 1]%N) as (st & Hrtc & Hq).
  exists st. split; [exact Hrtc|]. split; [exact Hq|].
  exact (tasks_sort_the_range [3; 1; 4; 1]%N N.ltb 0 st
           reference_conforming ltb_strict_weak_order Hrtc Hq).
Defined.

Lemma sort_keeps_sorted_witness :
  ∃ st,
    rtc (pool_step (Some (0%N, N.ltb)))
        (PoolState [1; 1; 3; 4]%N [(0, 4)]) st ∧
    task_queue st = [] ∧ cells st = [1; 1; 3; 4]%N.
Proof.
  destruct (drained_run_exists [1; 1; 3; 4]%N) as (st & Hrtc & Hq).
  exists st. split; [exact Hrtc|]. split; [exact Hq|].
  refine (sort_keeps_sorted [1; 1; 3; 4]%N N.ltb 0 st
            reference_conforming ltb_strict_weak_order ltb_total _ Hrtc Hq).
  apply Sorted_nondecreasing. by repeat constructor.
Defined.

Lemma tasks_keep_to_their_ranges_witness :
  length [3; 1; 4; 1]%N = 4 ∧
  Forall (λ t : task, t.1 ≤ t.2 ≤ 4) [(0, 4)] ∧
  all_disjoint [(0, 4)] ∧
  ∀ t, t ∈ [(0, 4)] →
    ∃ arr' pushed,
      quick_sort (Some (0%N, N.ltb)) t [3; 1; 4; 1]%N
        = Returned (arr', pushed) ∧
      (∀ i, ¬ t.1 ≤ i < t.2 → arr' !! i = [3; 1; 4; 1]%N !! i) ∧
      range_of t.1 t.2 arr' ≡ₚ range_of t.1 t.2 [3; 1; 4; 1]%N ∧
      Forall (within t) pushed.
Proof.
  exact (tasks_keep_to_their_ranges [3; 1; 4; 1]%N N.ltb 0
           (PoolState [3; 1; 4; 1]%N [(0, 4)])
           reference_conforming ltb_strict_weak_order (rtc_refl _ _)).
Defined.

End sort_further_examples.

End MtSortSpec.

(** ** thread_pool *)

Module ThreadPoolSpec.
Import ThreadPool.

(** *** Lists of workers *)

Section worker_lists.
Context {X : Type}.
Implicit Types (ws : list X).

Lemma omap_insert_none {Y} (f : X → option Y) ws i pc' :
  (∀ pc, ws !! i = Some pc → f pc = None) → f pc' = None →
  omap f (<[i:=pc']> ws) = omap f ws.
Proof.
  revert i. induction ws as [|w ws IH]; intros [|i] Hi Hf; csimpl; [done..| |].
  - by rewrite Hf, (Hi w).
  - by rewrite IH.
Qed.

Lemma omap_insert_gain {Y} (f : X → option Y) ws i pc pc' y :
  ws !! i = Some pc → f pc = None → f pc' = Some y →
  omap f (<[i:=pc']> ws) ≡ₚ y :: omap f ws.
Proof.
  revert i. induction ws as [|w ws IH]; intros [|i] Hi Hf Hf';
    simpl in Hi; simplify_eq; csimpl.
  - by rewrite Hf, Hf'.
  - destruct (f w); rewrite IH by done; [apply Permutation_swap|done].
Qed.

Lemma omap_insert_lose {Y} (f : X → option Y) ws i pc pc' y :
  ws !! i = Some pc → f pc = Some y → f pc' = None →
  y :: omap f (<[i:=pc']> ws) ≡ₚ omap f ws.
Proof.
  revert i. induction ws as [|w ws IH]; intros [|i] Hi Hf Hf';
    simpl in Hi; simplify_eq; csimpl.
  - by rewrite Hf, Hf'.
  - destruct (f w); rewrite <-(IH i) by done; [apply Permutation_swap|done].
Qed.

Lemma omap_fmap_same {Y} (f : X → option Y) (g : X → X) ws :
  (∀ pc, f (g pc) = f pc) → omap f (g <$> ws) = omap f ws.
Proof.
  intros Hf. induction ws as [|w ws IH]; csimpl; [done|].
  by rewrite Hf, IH.
Qed.
End worker_lists.

(** *** Taking a step apart *)

Ltac step_inv H :=
  unfold step in H;
  destruct (undefined _) eqn:?; [done|];
  match type of H with
  | context [match ?l with Step _ _ => _ | Spurious _ => _ end] =>
    destruct l as [[|?i] ?wake|[|?i]]
  end;
  [ unfold owner_step in H; destruct (owner _) eqn:?
  | unfold worker in H;
    destruct (threads _ !! _) as [[]|] eqn:?; simpl in H
  | unfold spurious in H; destruct (owner _) eqn:?
  | unfold spurious in H;
    destruct (threads _ !! _) as [[]|] eqn:?; simpl in H ];
  try done;
  unfold push, add, acquire in H;
  simplify_option_eq;
  repeat (case_match; simplify_option_eq; try done).

Lemma notify_one_cases wake ws ws' :
  notify_one wake ws = Some ws' →
  ws' = ws ∨ (ws !! wake = Some WBlocked ∧ ws' = <[wake:=WWoken]> ws).
Proof.
  unfold notify_one. intros H. repeat case_match; simplify_eq; auto.
Qed.

(** *** Every task added is queued, taken or called; none twice *)

(** The task a worker has taken from the queue and not called yet. *)
Definition taken_of (pc : wpc) : option task :=
  match pc with WCall t => Some t | _ => None end.

(** Tasks still queued when the destructor destroys the queue stay in
    [task_queue]: they are accounted for as queued, and never taken. *)
Definition accounted (s : pool) : Prop :=
  submitted s ≡ₚ task_queue s ++ omap taken_of (threads s) ++ executed s.

Lemma accounted_init threads_amount ops :
  accounted (thread_pool threads_amount ops).
Proof.
  unfold accounted; simpl.
  induction (N.to_nat threads_amount); simpl; done.
Qed.

(** A look-up in a list of workers after one or two of them moved. *)
Ltac lookup_inv :=
  repeat match goal with
  | H : <[_:=_]> _ !! _ = Some _ |- _ =>
    apply list_lookup_insert_Some in H as [(? & ? & ?)|[? H]]; simplify_eq
  end; simplify_eq/=.

Lemma accounted_step prog l s s' :
  accounted s → step prog l s = Some s' → accounted s'.
Proof.
  unfold accounted. intros Hacc Hstep. step_inv Hstep; simpl.
  all: try match goal with
    | H : notify_one _ _ = Some _ |- _ =>
      apply notify_one_cases in H as [->|[? ->]]
    end.
  all: try match goal with
    | H : task_queue _ = _ |- _ => rewrite H
    end.
  all: unfold notify_all; rewrite ?(omap_fmap_same taken_of) by (by intros []).
  all: rewrite ?(omap_insert_none taken_of) by (done || by intros; lookup_inv).
  all: try done.
  all: try (rewrite Hacc; solve_Permutation).
  - erewrite (omap_insert_gain taken_of) by done.
    rewrite Hacc. solve_Permutation.
  - rewrite Hacc, <-(omap_insert_lose taken_of (threads s) i _
                      (WRun t (pushes (behaviour_of prog t))) t) by done.
    solve_Permutation.
Qed.

(** *** The control state *)

(** The worker is inside a critical section of [worker()]. *)
Definition holds (pc : wpc) : bool :=
  match pc with
  | WInc | WCheck | WDec | WNotify | WShutdown | WWait => true
  | _ => false
  end.

Definition owner_holds (pc : opc) : bool :=
  match pc with
  | OWaitCheck _ | OWaitReturn _ => true
  | _ => false
  end.

(** The worker has incremented [active] and not decremented it yet. *)
Definition counted (pc : wpc) : nat :=
  match pc with
  | WCheck | WCall _ | WRun _ _ | WRelock | WDec => 1
  | _ => 0
  end.

(** The worker has found the queue empty and still holds the mutex. *)
Definition drained (pc : wpc) : bool :=
  match pc with
  | WDec | WNotify | WShutdown | WWait => true
  | _ => false
  end.

(** The mutex is held by exactly the thread that is inside a critical
    section; [active] counts the workers between their increment and their
    decrement; a worker past its draining loop has left the queue empty;
    no worker has returned unless shutdown was requested, and none has
    been lost to an exception. *)
Record consistent (s : pool) : Prop := {
  cons_workers i pc :
    threads s !! i = Some pc →
    holds pc ↔ queue_mutex s = Some (Worker i);
  cons_owner : owner_holds (owner s) ↔ queue_mutex s = Some Owner;
  cons_active : active s = sum_list_with counted (threads s);
  cons_drained i pc :
    threads s !! i = Some pc → drained pc → task_queue s = [];
  cons_exited i :
    threads s !! i = Some WExited → shutdown_request s = true;
  cons_threw : Forall (λ pc, pc ≠ WThrew) (threads s)
}.

Section sums.
Context {X : Type} (f : X → nat).
Implicit Types (ws : list X).

Lemma sum_list_with_insert ws i pc pc' :
  ws !! i = Some pc →
  sum_list_with f (<[i:=pc']> ws) + f pc = sum_list_with f ws + f pc'.
Proof.
  revert i. induction ws as [|w ws IH]; intros [|i] Hi;
    simpl in Hi; simplify_eq; simpl.
  - lia.
  - specialize (IH i Hi). lia.
Qed.

Lemma sum_list_with_fmap_same (g : X → X) ws :
  (∀ pc, f (g pc) = f pc) →
  sum_list_with f (g <$> ws) = sum_list_with f ws.
Proof.
  intros Hf. induction ws as [|w ws IH]; csimpl; [done|].
  by rewrite Hf, IH.
Qed.
End sums.

Lemma consistent_init threads_amount ops :
  consistent (thread_pool threads_amount ops).
Proof.
  split; simpl.
  - intros i pc [-> _]%lookup_replicate. done.
  - done.
  - induction (N.to_nat threads_amount); simpl; done.
  - intros i pc [-> _]%lookup_replicate. done.
  - intros i [? _]%lookup_replicate. done.
  - by apply Forall_replicate.
Qed.

(** A look-up among the workers after a step, traced back to before it. *)
Ltac workers_inv :=
  repeat match goal with
  | H : notify_one _ _ = Some _ |- _ =>
    apply notify_one_cases in H as [->|[? ->]]
  | H : notify_all _ !! _ = Some _ |- _ =>
    unfold notify_all in H; rewrite list_lookup_fmap in H;
    apply fmap_Some in H as (? & H & ?)
  | H : <[_:=_]> _ !! _ = Some _ |- _ =>
    apply list_lookup_insert_Some in H as [(? & ? & ?)|[? H]]; simplify_eq
  end; simplify_eq/=.

(** What the invariant says about the workers looked up in the context. *)
Ltac use_workers Hw :=
  repeat match goal with
  | H : threads _ !! _ = Some _ |- _ =>
    generalize (Hw _ _ H); clear H; intro
  end.

(** The sum of [counted] over the workers after one or two of them moved,
    in terms of the sum before. *)
Ltac sum_step ws i pc' :=
  match goal with
  | H : ws !! i = Some ?pc |- _ =>
    pose proof (sum_list_with_insert counted ws i pc pc' H)
  | H : _ !! i = Some ?pc |- _ =>
    let H' := fresh in
    assert (ws !! i = Some pc) as H'
      by (rewrite list_lookup_insert_ne by (intros ->; simplify_eq);
          exact H);
    pose proof (sum_list_with_insert counted ws i pc pc' H'); clear H'
  end;
  let n := fresh "n" in
  set (n := sum_list_with counted (<[i:=pc']> ws)) in *; clearbody n.

Ltac sum_inv :=
  unfold notify_all;
  rewrite ?(sum_list_with_fmap_same counted) by (by intros []);
  repeat match goal with
  | |- context [sum_list_with counted (<[?i:=?pc']> ?ws)] =>
    sum_step ws i pc'
  | H : context [sum_list_with counted (<[?i:=?pc']> ?ws)] |- _ =>
    sum_step ws i pc'
  end.

Lemma consistent_step prog l s s' :
  consistent s → step prog l s = Some s' → undefined s' = None →
  consistent s'.
Proof.
  intros [Hw Ho Ha Hd He Ht] Hstep Hdef.
  split.
  - intros j pc Hj. step_inv Hstep; simpl in *; workers_inv.
    all: try match goal with |- context [is_blocked ?x] => destruct x end.
    all: use_workers Hw; simpl in *; naive_solver.
  - step_inv Hstep; simpl in *; workers_inv.
    all: use_workers Hw; destruct (owner s); simplify_eq/=; naive_solver.
  - step_inv Hstep; simpl in *; workers_inv.
    all: sum_inv; simpl in *; lia.
  - intros j pc Hj Hpc. step_inv Hstep; simpl in *; workers_inv.
    all: try match goal with H : is_blocked ?x = _ |- _ => destruct x end.
    all: try match goal with
         | H : Is_true (drained (if is_blocked ?x then _ else _)) |- _ =>
           destruct x
         end.
    all: try done.
    all: try (by eapply Hd).
    all: exfalso; pose proof (Hd _ _ Hj Hpc); pose proof (Hw _ _ Hj) as Hh.
    all: destruct pc; simplify_eq/=; try done.
    all: destruct Hh as [Hh _]; by specialize (Hh I).
  - intros j Hj. step_inv Hstep; simpl in *; workers_inv.
    all: try match goal with H : context [is_blocked ?x] |- _ => destruct x end.
    all: try done.
    all: specialize (He _ Hj); congruence.
  - step_inv Hstep; simpl in *; workers_inv.
    all: unfold notify_all; rewrite ?Forall_fmap.
    all: repeat apply Forall_insert; try done.
    all: eapply Forall_impl; [exact Ht|]; by intros [].
Qed.

(** *** Reachable states *)

Lemma steps_defined sp prog s s' : steps sp prog s s' → undefined s = None.
Proof.
  intros (l & _ & Hstep). unfold step in Hstep.
  by destruct (undefined s).
Qed.

(** Induction over the states a pool can reach. *)
Lemma reachable_ind sp prog (P : pool → Prop) s0 :
  P s0 →
  (∀ l s s',
     rtc (steps sp prog) s0 s → (is_spurious l → sp) → P s →
     step prog l s = Some s' → P s') →
  ∀ s, rtc (steps sp prog) s0 s → P s.
Proof.
  intros H0 Hstep s Hrtc. eapply (rtc_ind_r P s0); [done| |done].
  intros y z ? (l & ? & ?) ?. eauto.
Qed.

Lemma accounted_reachable sp prog threads_amount ops s :
  rtc (steps sp prog) (thread_pool threads_amount ops) s → accounted s.
Proof.
  revert s. apply reachable_ind; [apply accounted_init|].
  intros l s1 s2 _ _ ??. by eapply accounted_step.
Qed.

Lemma quiescent_executed s :
  accounted s → quiescent s → executed s ≡ₚ submitted s.
Proof.
  intros Hacc [Hq Hrun].
  assert (omap taken_of (threads s) = []) as Hnil.
  { clear Hacc. induction Hrun as [|pc ws Hpc _ IH]; csimpl; [done|].
    destruct pc; simplify_eq/=; done. }
  unfold accounted in Hacc. by rewrite Hq, Hnil in Hacc.
Qed.

Lemma consistent_reachable sp prog threads_amount ops s :
  rtc (steps sp prog) (thread_pool threads_amount ops) s →
  undefined s = None → consistent s.
Proof.
  revert s. apply (reachable_ind sp prog (λ s, undefined s = None → _)).
  { intros _. apply consistent_init. }
  intros l s1 s2 _ _ IH Hstep Hdef.
  eapply consistent_step; [apply IH|done..].
  unfold step in Hstep. by destruct (undefined s1).
Qed.

(** *** What [wait()] and the destructor do achieve *)

(** The owner has been woken inside [wait()], or is past it. *)
Definition past_wait (pc : opc) : bool :=
  match pc with
  | ORun | OWaitCheck _ | OWaitBlocked _ => false
  | _ => true
  end.

(** The owner is past line 71 of the destructor. *)
Definition in_teardown (pc : opc) : bool :=
  match pc with
  | ONotifyAll | OJoin | ODestroyed => true
  | _ => false
  end.

Lemma quiescent_idle s :
  consistent s → task_queue s = [] → active s = 0 → quiescent s.
Proof.
  intros Hcons Hq Ha. split; [done|].
  rewrite (cons_active _ Hcons) in Ha. clear Hcons Hq.
  induction (threads s) as [|pc ws IH]; [constructor|].
  simpl in Ha. constructor; [|apply IH; lia].
  destruct pc; simpl in *; done || lia.
Qed.

Lemma quiescent_lookup s i pc :
  quiescent s → threads s !! i = Some pc → running pc = None.
Proof. intros [_ Hrun] Hi. by eapply Forall_lookup_1 in Hrun. Qed.

(** Without spurious wake-ups the owner is woken inside [wait()], and is
    past it, only while the pool is quiescent. *)
Lemma past_wait_step prog l s s' :
  consistent s → is_spurious l = false →
  (past_wait (owner s) → quiescent s) →
  step prog l s = Some s' →
  past_wait (owner s') → quiescent s'.
Proof.
  intros Hcons Hl Hinv Hstep Hpast.
  assert (∀ i pc' s0,
            running pc' = None → quiescent s0 →
            quiescent (set_worker i pc' s0)) as Hmove.
  { intros i pc' s0 Hpc' [Hq Hrun]. split; [done|].
    by apply Forall_insert. }
  step_inv Hstep; simpl in *; try done.
  all: try (by (eapply Hmove; [done|by apply Hinv])).
  all: try (by destruct (owner s); simplify_eq/=; apply Hinv).
  all: try match goal with
       | H : owner _ = _ |- _ =>
         try rewrite H in Hpast; try rewrite H in Hinv; simpl in *
       end; try done.
  1, 2: (* the test of line 97 fails *)
    (match goal with
     | H : bool_decide _ = false |- _ =>
       apply bool_decide_eq_false in H; rename H into Hidle
     end;
     apply (quiescent_idle (set_owner _ s)); simpl;
     [ destruct Hcons; split; simpl; try done;
       match goal with H : owner _ = _ |- _ => by rewrite H in * end
     | destruct (task_queue s); [done|]; destruct Hidle; by left
     | destruct (active s); [done|]; destruct Hidle; right; lia ]).
  - (* line 74 *)
    destruct (Hinv I) as [Hq Hrun]. split; [done|]. simpl.
    unfold notify_all. rewrite Forall_fmap.
    eapply Forall_impl; [exact Hrun|]. by intros [].
  - (* no task can be taken: the queue is empty *)
    destruct (Hinv Hpast) as [Hq _]. congruence.
  - (* no task is being taken *)
    match goal with
    | H : threads _ !! _ = Some _ |- _ =>
      by apply (quiescent_lookup _ _ _ (Hinv Hpast)) in H
    end.
  - (* no task is running *)
    match goal with
    | H : threads _ !! _ = Some _ |- _ =>
      by apply (quiescent_lookup _ _ _ (Hinv Hpast)) in H
    end.
  - (* line 144: the worker notifies the owner *)
    apply Hmove; [done|].
    destruct (owner s) eqn:Howner; simpl in *;
      try (by destruct (Hinv Hpast)).
    apply (quiescent_idle (set_owner _ s)); simpl; [|by eapply cons_drained|done].
    destruct Hcons. split; simpl; try done. by rewrite Howner in *.
Qed.

(** After line 71 the owner is in the rest of the destructor, for good. *)
Lemma in_teardown_step prog l s s' :
  (shutdown_request s = true → in_teardown (owner s)) →
  step prog l s = Some s' →
  shutdown_request s' = true → in_teardown (owner s').
Proof.
  intros Hinv Hstep Hs. step_inv Hstep; simpl in *; try done.
  all: try (by match goal with H : owner _ = _ |- _ => rewrite H end).
  all: assert (in_teardown (owner s)) as Hold
    by (apply Hinv; congruence); clear Hinv.
  all: destruct (owner s); simplify_eq/=; done.
Qed.

Lemma workers_length_step prog l s s' :
  step prog l s = Some s' → length (threads s') = length (threads s).
Proof.
  intros Hstep. step_inv Hstep; simpl in *; workers_inv.
  all: unfold notify_all; by rewrite ?length_insert, ?length_fmap.
Qed.

(** The destructor has joined the workers only if all of them are done. *)
Lemma joined_step prog l s s' :
  (owner s = ODestroyed → Forall (λ pc, finished pc) (threads s)) →
  step prog l s = Some s' →
  owner s' = ODestroyed → Forall (λ pc, finished pc) (threads s').
Proof.
  intros Hinv Hstep Howner.
  step_inv Hstep; simpl in *; workers_inv; try congruence.
  all: try (destruct (owner s); simplify_eq/=).
  all: repeat match goal with
       | H : threads _ !! _ = Some ?pc |- _ =>
         eapply Forall_lookup_1 in H; [|by apply Hinv]; simplify_eq/=
       end; try done.
  apply Forall_forall. intros pc Hpc.
  match goal with
  | H : forallb _ _ = true |- _ =>
    rewrite forallb_forall in H; apply Is_true_true, H
  end.
  by apply list_elem_of_In.
Qed.


(** Shutdown is requested exactly while the owner is past line 71; the
    data members are destroyed only at the end of the destructor; and once
    the futures have joined, every worker is done. *)
Record teardown_inv (s : pool) : Prop := {
  td_phase : shutdown_request s = true ↔ in_teardown (owner s);
  td_joined : owner s = ODestroyed → Forall (λ pc, finished pc) (threads s);
  td_members :
    (members_destroyed s = true → owner s = OJoin ∨ owner s = ODestroyed) ∧
    (owner s = ODestroyed → members_destroyed s = true)
}.

Lemma teardown_inv_init threads_amount ops :
  teardown_inv (thread_pool threads_amount ops).
Proof. split; simpl; done. Qed.

Lemma teardown_inv_step prog l s s' :
  teardown_inv s → step prog l s = Some s' → teardown_inv s'.
Proof.
  intros [Hphase Hjoined [Hgone Hlast]] Hstep. split.
  - split; [by eapply in_teardown_step; [apply Hphase|]|].
    intros Hs. step_inv Hstep; simpl in *; try done.
    all: try (apply Hphase; by destruct (owner s); simplify_eq/=).
    all: destruct (owner s); simplify_eq/=; try done.
    all: destruct Hphase as [_ Hp]; by specialize (Hp I).
  - by eapply joined_step.
  - split.
    + intros Hd. step_inv Hstep; simpl in *; try congruence; auto.
      all: destruct (Hgone Hd) as [Ho|Ho]; rewrite Ho in *; simplify_eq/=.
      all: auto.
    + intros Ho. step_inv Hstep; simpl in *; simplify_eq/=; auto.
      all: try congruence.
      all: try (by specialize (Hlast Ho)).
      all: destruct (owner s); simplify_eq/=; auto.
      all: by specialize (Hlast eq_refl).
Qed.

Lemma teardown_inv_reachable sp prog threads_amount ops s :
  rtc (steps sp prog) (thread_pool threads_amount ops) s → teardown_inv s.
Proof.
  revert s. apply reachable_ind; [apply teardown_inv_init|].
  intros l s s' _ _ ??. by eapply teardown_inv_step.
Qed.


Lemma past_wait_quiescent prog threads_amount ops s :
  rtc (steps false prog) (thread_pool threads_amount ops) s →
  past_wait (owner s) → quiescent s.
Proof.
  revert s.
  apply (reachable_ind false prog (λ s, past_wait (owner s) → quiescent s));
    [done|].
  intros l s s' Hrtc Hl Hinv Hstep.
  eapply (past_wait_step prog l s); [| |done..].
  - eapply consistent_reachable; [done|].
    unfold step in Hstep. by destruct (undefined s).
  - destruct (is_spurious l); [|done]. by destruct Hl.
Qed.

(** X4.  In a run without spurious wake-ups, whenever [wait()] is about
    to return (and, in the destructor, ever after) the pool is quiescent
    and every task submitted so far has been called. *)
Lemma wait_returns_quiescent prog threads_amount ops s :
  rtc (steps false prog) (thread_pool threads_amount ops) s →
  undefined s = None → past_wait (owner s) →
  quiescent s ∧ executed s ≡ₚ submitted s.
Proof.
  intros Hrtc Hdef Hpast.
  pose proof (past_wait_quiescent _ _ _ _ Hrtc Hpast) as Hquiet.
  split; [done|].
  by eapply quiescent_executed; [eapply accounted_reachable|].
Qed.

(** A pool constructed with no workers never calls anything. *)
Lemma no_workers_no_calls sp prog ops s :
  rtc (steps sp prog) (thread_pool 0 ops) s →
  threads s = [] ∧ executed s = [] ∧ undefined s = None.
Proof.
  revert s. apply reachable_ind; [done|].
  intros l s s' _ _ (Hw & He & Hu) Hstep.
  step_inv Hstep; simpl; rewrite ?Hw in *; simplify_eq/=; try done.
  all: try match goal with
       | H : notify_one _ [] = Some _ |- _ =>
         apply notify_one_cases in H as [->|[? ->]]
       end; done.
Qed.

(** *** Runs of concrete pools *)

Lemma run_reachable prog ls s s' :
  run prog ls s = Some s' → rtc (steps true prog) s s'.
Proof.
  revert s. induction ls as [|l ls IH]; intros s Hrun; simplify_eq/=.
  { done. }
  destruct (step prog l s) as [s1|] eqn:Hstep; simplify_eq/=.
  eapply rtc_l; [|by apply IH]. by exists l.
Qed.

(** Callables that push nothing; callable 7 throws. *)
Definition quiet : program := λ _ _, Behaviour [] false.
Definition thrower : program := λ f _, Behaviour [] (bool_decide (f = 7)).

Definition f_with_args : task := Task 1 [123; 456]%Z.

(** The state a run ends in has the property [P]. *)
Definition after (prog : program) (ls : list label) (s0 : pool)
                 (P : pool → Prop) : Prop :=
  match run prog ls s0 with
  | Some s => P s
  | None => False
  end.

(** C5 fails on the code: line 137 calls the task with nothing to catch
    what it throws.  The exception leaves [worker()]: the worker is gone
    with [active] still counting it, the unwinding unlocks a mutex the
    worker gave up at line 136, the task queued behind is never called,
    and the pool can take no further step. *)
Lemma throwing_task_removes_worker :
  after thrower
        (replicate 2 (Step Owner 0) ++ replicate 5 (Step (Worker 0) 0))
        (thread_pool 1 [Push (Task 7 []); Push f_with_args; Wait])
        (λ s,
          threads s = [WThrew] ∧ active s = 1 ∧
          task_queue s = [f_with_args] ∧ executed s = [Task 7 []] ∧
          undefined s = Some UnlockOfUnownedMutex ∧
          ∀ l, step thrower l s = None).
Proof. vm_compute. done. Qed.

(** C3 fails on the code: [wait()] tests its condition with [if], not in a
    loop, so a spurious wake-up lets it return.  In the first run it
    returns while the task submitted before it is still queued, in the
    second while a worker is inside that task. *)
Lemma wait_returns_early :
  after quiet
        (replicate 3 (Step Owner 0) ++ [Spurious Owner] ++
         replicate 2 (Step Owner 0))
        (thread_pool 1 [Push f_with_args; Wait])
        (λ s,
          owner s = ORun ∧ script s = [] ∧
          task_queue s = [f_with_args] ∧ executed s = [] ∧ ¬ quiescent s) ∧
  after quiet
        (replicate 3 (Step Owner 0) ++ replicate 4 (Step (Worker 0) 0) ++
         [Spurious Owner] ++ replicate 2 (Step Owner 0))
        (thread_pool 1 [Push f_with_args; Wait])
        (λ s,
          owner s = ORun ∧ script s = [] ∧
          threads s = [WRun f_with_args []] ∧ active s = 1 ∧
          ¬ quiescent s).
Proof.
  split; vm_compute; split_and!; try done.
  - by intros [? _].
  - intros [_ Hrun]. by inversion Hrun.
Qed.

(** C4 fails on the code for the same reason: the [wait()] the destructor
    starts with returns on a spurious wake-up, and the destructor sets
    [shutdown_request] and wakes the workers while the task submitted
    before it is still queued. *)
Lemma destructor_shuts_down_early :
  after quiet
        (replicate 3 (Step Owner 0) ++ [Spurious Owner] ++
         replicate 4 (Step Owner 0))
        (thread_pool 1 [Push f_with_args; Destroy])
        (λ s,
          owner s = OJoin ∧ shutdown_request s = true ∧
          task_queue s = [f_with_args] ∧ executed s = [] ∧ ¬ quiescent s).
Proof. vm_compute. split_and!; try done. by intros [? _]. Qed.

(** C8 fails on the code, by the defect of C3 and C4.  A task is pushed to
    a pool whose worker has not started yet, and the pool is destroyed.
    The [wait()] the destructor starts with returns on a spurious wake-up,
    the destructor goes on to its end, and the data members are destroyed
    with the task still in the queue: the task is destroyed with it, and
    in no continuation of the run is it ever called. *)
Lemma queued_task_destroyed_uncalled :
  after quiet
        (replicate 3 (Step Owner 0) ++ [Spurious Owner] ++
         replicate 5 (Step Owner 0))
        (thread_pool 1 [Push f_with_args; Destroy])
        (λ s,
          submitted s = [f_with_args] ∧ task_queue s = [f_with_args] ∧
          members_destroyed s = true ∧
          ∀ s', rtc (steps true quiet) s s' → executed s' = []).
Proof.
  unfold after.
  destruct (run quiet _ _) as [s|] eqn:Hrun; [|by vm_compute in Hrun].
  vm_compute in Hrun. injection Hrun as <-.
  split_and!; [done..|].
  intros s' Hrtc.
  cut (executed s' = [] ∧ threads s' = [WStart] ∧ owner s' = OJoin ∧
       members_destroyed s' = true); [by intros [? _]|].
  eapply (rtc_ind_r (λ s', executed s' = [] ∧ threads s' = [WStart] ∧
                           owner s' = OJoin ∧ members_destroyed s' = true));
    [| |exact Hrtc]; [done|].
  clear s' Hrtc. intros s1 s2 _ (l & _ & Hstep) (He & Hws & Ho & Hd).
  unfold step in Hstep. destruct (undefined s1); [done|].
  destruct l as [[|i] wake|[|i]]; simpl in Hstep.
  - unfold owner_step in Hstep. rewrite Ho, Hd, Hws in Hstep. done.
  - unfold worker in Hstep. rewrite Hws, Hd in Hstep.
    destruct i; simplify_eq/=. done.
  - rewrite Ho in Hstep. done.
  - rewrite Hws in Hstep. destruct i; simplify_eq/=.
Qed.

(** *** One worker calls the tasks in the order they were added *)

(** What was added to the queue, in that order, is what the only worker
    has called, then the task it has taken and not called yet, then what
    is still queued. *)
Definition in_order (s : pool) : Prop :=
  ∃ pc,
    threads s = [pc] ∧
    submitted s = executed s ++ option_list (taken_of pc) ++ task_queue s.

Lemma in_order_step prog l s s' :
  in_order s → step prog l s = Some s' → in_order s'.
Proof.
  intros (pc & Hws & Hord) Hstep. unfold in_order.
  step_inv Hstep; simpl.
  all: try match goal with
    | H : notify_one _ _ = Some _ |- _ =>
      apply notify_one_cases in H as [->|[? ->]]
    end.
  all: try rewrite Hws in *.
  all: repeat match goal with
    | H : [_] !! ?i = Some _ |- _ => destruct i; simplify_eq/=
    end.
  all: try match goal with
    | H : task_queue _ = _ |- _ => rewrite ?H; rewrite ?H in Hord
    end.
  all: unfold notify_all; simpl.
  all: eexists; (split; [reflexivity|]); simpl in *.
  all: try done.
  all: try (destruct pc; simplify_eq/=).
  all: rewrite Hord; simpl; by rewrite <-?app_assoc.
Qed.

Lemma in_order_reachable sp prog ops s :
  rtc (steps sp prog) (thread_pool 1 ops) s → in_order s.
Proof.
  revert s. apply reachable_ind; [by exists WStart|].
  intros l s s' _ _ ??. by eapply in_order_step.
Qed.

(** *** Pushes followed by a wait *)

(** The tasks a script pushes, in order. *)
Definition pushed (ops : list op) : list task :=
  omap (λ o, match o with Push t => Some t | _ => None end) ops.

(** The pushes the owner has made so far are among the tasks added, in
    the order it made them. *)
Definition owner_pushes (ops : list op) (s : pool) : Prop :=
  ∃ made, pushed ops = made ++ pushed (script s) ∧ sublist made (submitted s).

Lemma owner_pushes_step ops prog l s s' :
  owner_pushes ops s → step prog l s = Some s' → owner_pushes ops s'.
Proof.
  intros (made & Hops & Hsub) Hstep.
  step_inv Hstep; simpl.
  all: try (by exists made).
  all: try (exists made; split; [done|by apply sublist_inserts_r]).
  all: try (exists made; split; [|done];
            match goal with H : script _ = _ |- _ => by rewrite H in Hops end).
  destruct t as [f args]. exists (made ++ [Task f args]). simpl. split.
  - by rewrite <-app_assoc.
  - by apply sublist_app.
Qed.

Lemma owner_pushes_reachable sp prog threads_amount ops s :
  rtc (steps sp prog) (thread_pool threads_amount ops) s →
  owner_pushes ops s.
Proof.
  revert s. apply reachable_ind.
  { exists []. split; [done|]. apply sublist_nil_l. }
  intros l s s' _ _ ??. by eapply owner_pushes_step.
Qed.

(** When no callable pushes, no call has pushes left to make and the
    tasks added are exactly the owner's pushes. *)
Definition no_todo (pc : wpc) : bool :=
  match pc with WRun _ (_ :: _) => false | _ => true end.

Definition only_owner_pushes (ops : list op) (s : pool) : Prop :=
  pushed ops = submitted s ++ pushed (script s) ∧
  Forall (λ pc, no_todo pc) (threads s).

Lemma only_owner_pushes_step ops prog l s s' :
  (∀ f args, pushes (prog f args) = []) →
  only_owner_pushes ops s → step prog l s = Some s' →
  only_owner_pushes ops s'.
Proof.
  intros Hquiet [Hops Hnone] Hstep.
  step_inv Hstep; simpl.
  all: try match goal with
    | H : notify_one _ _ = Some _ |- _ =>
      apply notify_one_cases in H as [->|[? ->]]
    end.
  all: try match goal with
    | H : threads _ !! _ = Some (WRun _ (_ :: _)) |- _ =>
      by eapply Forall_lookup_1 in H; [|exact Hnone]
    end.
  all: split; simpl;
    [ try done
    | unfold notify_all; rewrite ?Forall_fmap;
      repeat apply Forall_insert; try done;
      try (eapply Forall_impl; [exact Hnone|]; by intros []) ].
  all: try (unfold behaviour_of; by rewrite Hquiet).
  all: try match goal with H : script _ = _ |- _ => by rewrite H in Hops end.
  all: destruct t as [f args]; simpl in *; by rewrite Hops, <-app_assoc.
Qed.

Lemma only_owner_pushes_reachable sp prog threads_amount ops s :
  (∀ f args, pushes (prog f args) = []) →
  rtc (steps sp prog) (thread_pool threads_amount ops) s →
  only_owner_pushes ops s.
Proof.
  intros Hquiet. revert s. apply reachable_ind.
  { split; [done|]. by apply Forall_replicate. }
  intros l s s' _ _ ??. by eapply only_owner_pushes_step.
Qed.


(** X6.  When [wait()] returns in a run without spurious wake-ups, every
    task the owner has pushed so far has been called, each push accounting
    for a call of its own; when no callable pushes a task of its own, the
    calls made are exactly the owner's pushes, as many times each.  In
    which order the calls were made is not said. *)
Theorem pushes_then_wait prog threads_amount ops s :
  rtc (steps false prog) (thread_pool threads_amount ops) s →
  past_wait (owner s) →
  (∃ made, pushed ops = made ++ pushed (script s) ∧ made ⊆+ executed s) ∧
  ((∀ f args, pushes (prog f args) = []) →
   ∃ made, pushed ops = made ++ pushed (script s) ∧ executed s ≡ₚ made).
Proof.
  intros Hrtc Hpast.
  pose proof (past_wait_quiescent _ _ _ _ Hrtc Hpast) as Hquiet.
  pose proof (accounted_reachable _ _ _ _ _ Hrtc) as Hacc.
  pose proof (quiescent_executed _ Hacc Hquiet) as Hex.
  split.
  - destruct (owner_pushes_reachable false prog threads_amount ops s Hrtc)
      as (made & Hops & Hsub).
    exists made. split; [done|].
    rewrite Hex. by apply sublist_submseteq.
  - intros Hq.
    destruct (only_owner_pushes_reachable false prog threads_amount ops s Hq
                Hrtc) as [Hops _].
    by exists (submitted s).
Qed.

(** *** The workers of a pool *)

Lemma workers_length_reachable sp prog threads_amount ops s :
  rtc (steps sp prog) (thread_pool threads_amount ops) s →
  length (threads s) = N.to_nat threads_amount.
Proof.
  revert s. apply reachable_ind; [apply length_replicate|].
  intros l s s' _ _ <- Hstep. by eapply workers_length_step.
Qed.

(** X2.  As long as nothing undefined has happened, the pool has the
    number of workers it was constructed with, and until the destructor
    has set [shutdown_request] none of them has left [worker()]. *)
Theorem workers_stay sp prog threads_amount ops s :
  rtc (steps sp prog) (thread_pool threads_amount ops) s →
  undefined s = None →
  length (threads s) = N.to_nat threads_amount ∧
  (in_teardown (owner s) = false →
   shutdown_request s = false ∧
   Forall (λ pc, finished pc = false) (threads s)).
Proof.
  intros Hrtc Hdef.
  pose proof (workers_length_reachable _ _ _ _ _ Hrtc) as Hlen.
  split; [done|]. intros Howner.
  destruct (decide (threads_amount = 0%N)) as [->|Hn].
  { destruct (no_workers_no_calls _ _ _ _ Hrtc) as (Hws & _ & _).
    rewrite Hws. split; [|done].
    clear Hws Hlen Hdef. revert s Hrtc Howner.
    apply (reachable_ind sp prog
             (λ s, in_teardown (owner s) = false → shutdown_request s = false));
      [done|].
    intros l s s' _ _ IH Hstep Howner.
    destruct (shutdown_request s') eqn:Hs; [|done].
    eapply in_teardown_step in Hs; [|  |done].
    - by rewrite Howner in Hs.
    - intros Hs'. destruct (in_teardown (owner s)); [done|].
      by rewrite IH in Hs'. }
  pose proof (consistent_reachable _ _ _ _ _ Hrtc Hdef) as Hcons.
  pose proof (teardown_inv_reachable _ _ _ _ _ Hrtc) as Htd.
  assert (shutdown_request s = false) as Hs.
  { destruct (shutdown_request s) eqn:Hs; [|done].
    apply (td_phase _ Htd) in Hs. by rewrite Howner in Hs. }
  split; [done|]. apply Forall_lookup. intros i pc Hi.
  destruct pc; try done.
  - apply (cons_exited _ Hcons) in Hi. congruence.
  - by eapply Forall_lookup_1 in Hi; [|apply (cons_threw _ Hcons)].
Qed.

Section counting.
Context {X : Type} (f : X → nat).

Lemma sum_list_with_lookup (ws : list X) i pc :
  ws !! i = Some pc → f pc ≤ sum_list_with f ws.
Proof.
  revert i. induction ws as [|w ws IH]; intros [|i] Hi; simplify_eq/=.
  - lia.
  - apply IH in Hi. lia.
Qed.

Lemma sum_list_with_bound (ws : list X) n :
  (∀ pc, f pc ≤ n) → sum_list_with f ws ≤ n * length ws.
Proof.
  intros Hf. induction ws as [|w ws IH]; simpl; [lia|].
  specialize (Hf w). lia.
Qed.
End counting.

(** X7.  As long as nothing undefined has happened, [active] never
    exceeds the number of workers; a queue that is empty together with
    [active] at zero, the test of line 97, means that no task is queued,
    taken or running; and while a worker is inside a task it is counted
    in [active] and does not hold the mutex. *)
Theorem active_counts_running sp prog threads_amount ops s :
  rtc (steps sp prog) (thread_pool threads_amount ops) s →
  undefined s = None →
  active s ≤ N.to_nat threads_amount ∧
  (task_queue s = [] → active s = 0 → quiescent s) ∧
  (∀ i t todo,
     threads s !! i = Some (WRun t todo) →
     0 < active s ∧ queue_mutex s ≠ Some (Worker i)).
Proof.
  intros Hrtc Hdef.
  pose proof (consistent_reachable _ _ _ _ _ Hrtc Hdef) as Hcons.
  split_and!.
  - rewrite (cons_active _ Hcons), <-(workers_length_reachable _ _ _ _ _ Hrtc).
    etrans; [apply (sum_list_with_bound counted _ 1)|lia].
    intros []; simpl; lia.
  - by apply quiescent_idle.
  - intros i t todo Hi. split.
    + rewrite (cons_active _ Hcons).
      apply (sum_list_with_lookup counted) in Hi. simpl in Hi. lia.
    + intros Hm. by apply (cons_workers _ Hcons i _ Hi) in Hm.
Qed.

(** X8.  As long as nothing undefined has happened, at most one thread is
    inside a critical section of the pool, and that thread is the one
    holding the mutex: two workers are never both between locking and
    unlocking, no worker is while the owner is inside [wait()] with the
    mutex, and nobody is while the mutex is free. *)
Theorem mutual_exclusion sp prog threads_amount ops s :
  rtc (steps sp prog) (thread_pool threads_amount ops) s →
  undefined s = None →
  (∀ i j pc pc',
     threads s !! i = Some pc → threads s !! j = Some pc' →
     holds pc → holds pc' → i = j) ∧
  (∀ i pc,
     threads s !! i = Some pc → holds pc → owner_holds (owner s) = false) ∧
  (queue_mutex s = None →
   owner_holds (owner s) = false ∧
   ∀ i pc, threads s !! i = Some pc → holds pc = false).
Proof.
  intros Hrtc Hdef.
  pose proof (consistent_reachable _ _ _ _ _ Hrtc Hdef) as Hcons.
  split_and!.
  - intros i j pc pc' Hi Hj Hpc Hpc'.
    apply (cons_workers _ Hcons i _ Hi) in Hpc.
    apply (cons_workers _ Hcons j _ Hj) in Hpc'. congruence.
  - intros i pc Hi Hpc. apply (cons_workers _ Hcons i _ Hi) in Hpc.
    destruct (owner_holds (owner s)) eqn:Ho; [|done].
    pose proof (proj1 (cons_owner _ Hcons)) as Hown.
    rewrite Ho in Hown. specialize (Hown I). congruence.
  - intros Hfree. split.
    + destruct (owner_holds (owner s)) eqn:Ho; [|done].
      pose proof (proj1 (cons_owner _ Hcons)) as Hown.
      rewrite Ho in Hown. specialize (Hown I). congruence.
    + intros i pc Hi. destruct (holds pc) eqn:Hpc; [|done].
      pose proof (proj1 (cons_workers _ Hcons i _ Hi)) as Hw.
      rewrite Hpc in Hw. specialize (Hw I). congruence.
Qed.


(** X1.  A pool with one worker calls the tasks in the order they were
    added: in every state such a pool can reach, the tasks added so far
    are, in that order, the tasks the worker has called, then the task it
    has taken off the queue and not called yet, if any, then the tasks
    still queued. *)
Theorem tasks_taken_in_order sp prog ops s :
  rtc (steps sp prog) (thread_pool 1 ops) s →
  ∃ pc,
    threads s = [pc] ∧
    submitted s = executed s ++ option_list (taken_of pc) ++ task_queue s.
Proof. apply in_order_reachable. Qed.

(** *** The destructor can miss its wake-up *)

Lemma run_quietly prog ls s s' :
  Forall (λ l, is_spurious l = false) ls →
  run prog ls s = Some s' → rtc (steps false prog) s s'.
Proof.
  revert s. induction ls as [|l ls IH]; intros s Hls Hrun; simplify_eq/=.
  { done. }
  apply Forall_cons in Hls as [Hl Hls].
  destruct (step prog l s) as [s1|] eqn:Hstep; simplify_eq/=.
  eapply rtc_l; [|by apply IH]. exists l. by rewrite Hl.
Qed.

(** The first worker is blocked on [queue_cv], the notification of line
    74 is behind, and nothing is left that would notify again. *)
Record stranded (s : pool) : Prop := {
  str_owner : owner s = OJoin;
  str_blocked : threads s !! 0 = Some WBlocked;
  str_queue : task_queue s = [];
  str_running : Forall (λ pc, running pc = None) (threads s)
}.

Lemma stranded_step prog l s s' :
  is_spurious l = false → stranded s → step prog l s = Some s' → stranded s'.
Proof.
  intros Hl [Howner Hblocked Hqueue Hrunning] Hstep.
  assert (∀ i pc, threads s !! i = Some pc → running pc = None) as Hrun.
  { intros i pc Hi. by eapply Forall_lookup_1 in Hrunning. }
  step_inv Hstep; simpl in *; simplify_eq.
  all: try match goal with
       | H : threads _ !! _ = Some _ |- _ => by apply Hrun in H
       end.
  all: try match goal with
       | H : forallb finished _ = true, H' : threads _ !! 0 = Some _ |- _ =>
         rewrite forallb_forall in H;
         apply list_elem_of_lookup_2, list_elem_of_In, H in H'; done
       end.
  all: split; simpl; rewrite ?Howner; try done.
  all: try (rewrite list_lookup_insert_ne; [done|]; intros ->; simplify_eq).
  all: by apply Forall_insert.
Qed.

(** X5.  A pool with at least one worker that is destroyed right after
    its construction can reach, without any spurious wake-up, a state
    from which the destructor never completes: a worker that has tested
    [shutdown_request] at line 147 before line 71 set it, and blocks at
    line 152 after line 74 has notified, is never notified again, and the
    futures of line 77 wait for it. *)
Theorem destructor_can_hang prog threads_amount :
  (0 < threads_amount)%N →
  ∃ s,
    rtc (steps false prog) (thread_pool threads_amount [Destroy]) s ∧
    undefined s = None ∧ shutdown_request s = true ∧
    threads s !! 0 = Some WBlocked ∧
    ∀ s', rtc (steps false prog) s s' →
          owner s' = OJoin ∧ threads s' !! 0 = Some WBlocked.
Proof.
  intros Hn.
  destruct (N.to_nat threads_amount) as [|m] eqn:Hm; [lia|].
  exists (Pool (WBlocked :: notify_all (replicate m WStart)) [] None 0 true
               OJoin [] [] [] None false).
  split_and!; try done.
  - apply (run_quietly prog
             (replicate 3 (Step Owner 0) ++ replicate 6 (Step (Worker 0) 0) ++
              replicate 2 (Step Owner 0) ++ [Step (Worker 0) 0])).
    { by repeat constructor. }
    unfold thread_pool. rewrite Hm. by vm_compute.
  - intros s' Hrtc.
    cut (stranded s'); [by intros [? ? _ _]|].
    eapply (rtc_ind_r (λ s, stranded s)); [| |exact Hrtc].
    + split; simpl; [done..|].
      constructor; [done|]. unfold notify_all.
      rewrite Forall_fmap. by apply Forall_replicate.
    + intros s1 s2 _ (l & Hl & Hstep) IH.
      eapply stranded_step; [|done..].
      destruct (is_spurious l); [by destruct Hl|done].
Qed.


(** *** Runs that meet the hypotheses *)

Definition two_pushes : list op :=
  [Push f_with_args; Push (Task 2 []); Wait].

Definition first_taken : list label :=
  replicate 2 (Step Owner 0) ++ replicate 3 (Step (Worker 0) 0).

Definition served : list label :=
  replicate 3 (Step Owner 0) ++ replicate 11 (Step (Worker 0) 0).

Lemma tasks_taken_in_order_witness :
  after quiet first_taken (thread_pool 1 two_pushes)
        (λ s,
          ∃ pc,
            threads s = [pc] ∧
            submitted s
              = executed s ++ option_list (taken_of pc) ++ task_queue s).
Proof.
  unfold after.
  destruct (run quiet _ _) as [s|] eqn:Hrun; [|by vm_compute in Hrun].
  exact (tasks_taken_in_order true quiet two_pushes s
           (run_reachable _ _ _ _ Hrun)).
Defined.

Lemma workers_stay_witness :
  after quiet first_taken (thread_pool 2 two_pushes)
        (λ s,
          length (threads s) = N.to_nat 2 ∧
          (in_teardown (owner s) = false →
           shutdown_request s = false ∧
           Forall (λ pc, finished pc = false) (threads s))).
Proof.
  unfold after.
  destruct (run quiet _ _) as [s|] eqn:Hrun; [|by vm_compute in Hrun].
  pose proof (run_reachable _ _ _ _ Hrun) as Hrtc.
  vm_compute in Hrun. injection Hrun as <-.
  exact (workers_stay true quiet 2 two_pushes _ Hrtc eq_refl).
Defined.

Lemma active_counts_running_witness :
  after quiet first_taken (thread_pool 2 two_pushes)
        (λ s,
          active s ≤ N.to_nat 2 ∧
          (task_queue s = [] → active s = 0 → quiescent s) ∧
          (∀ i t todo,
             threads s !! i = Some (WRun t todo) →
             0 < active s ∧ queue_mutex s ≠ Some (Worker i))).
Proof.
  unfold after.
  destruct (run quiet _ _) as [s|] eqn:Hrun; [|by vm_compute in Hrun].
  pose proof (run_reachable _ _ _ _ Hrun) as Hrtc.
  vm_compute in Hrun. injection Hrun as <-.
  exact (active_counts_running true quiet 2 two_pushes _ Hrtc eq_refl).
Defined.

Lemma mutual_exclusion_witness :
  after quiet first_taken (thread_pool 2 two_pushes)
        (λ s,
          (∀ i j pc pc',
             threads s !! i = Some pc → threads s !! j = Some pc' →
             holds pc → holds pc' → i = j) ∧
          (∀ i pc,
             threads s !! i = Some pc → holds pc →
             owner_holds (owner s) = false) ∧
          (queue_mutex s = None →
           owner_holds (owner s) = false ∧
           ∀ i pc, threads s !! i = Some pc → holds pc = false)).
Proof.
  unfold after.
  destruct (run quiet _ _) as [s|] eqn:Hrun; [|by vm_compute in Hrun].
  pose proof (run_reachable _ _ _ _ Hrun) as Hrtc.
  vm_compute in Hrun. injection Hrun as <-.
  exact (mutual_exclusion true quiet 2 two_pushes _ Hrtc eq_refl).
Defined.

Lemma served_quietly l :
  Forall (λ l, is_spurious l = false) (served ++ replicate l (Step Owner 0)).
Proof.
  apply Forall_app. split; [by repeat constructor|by apply Forall_replicate].
Defined.

Lemma wait_returns_quiescent_witness :
  after quiet (served ++ replicate 1 (Step Owner 0))
        (thread_pool 1 [Push f_with_args; Wait])
        (λ s, quiescent s ∧ executed s ≡ₚ submitted s).
Proof.
  unfold after.
  destruct (run quiet _ _) as [s|] eqn:Hrun; [|by vm_compute in Hrun].
  pose proof (run_quietly _ _ _ _ (served_quietly 1) Hrun) as Hrtc.
  vm_compute in Hrun. injection Hrun as <-.
  exact (wait_returns_quiescent quiet 1 [Push f_with_args; Wait] _ Hrtc
           eq_refl I).
Defined.

Lemma pushes_then_wait_witness :
  after quiet (served ++ replicate 1 (Step Owner 0))
        (thread_pool 1 [Push f_with_args; Wait])
        (λ s,
          (∃ made,
             pushed [Push f_with_args; Wait] = made ++ pushed (script s) ∧
             made ⊆+ executed s) ∧
          ((∀ f args, pushes (quiet f args) = []) →
           ∃ made,
             pushed [Push f_with_args; Wait] = made ++ pushed (script s) ∧
             executed s ≡ₚ made)).
Proof.
  unfold after.
  destruct (run quiet _ _) as [s|] eqn:Hrun; [|by vm_compute in Hrun].
  pose proof (run_quietly _ _ _ _ (served_quietly 1) Hrun) as Hrtc.
  vm_compute in Hrun. injection Hrun as <-.
  exact (pushes_then_wait quiet 1 [Push f_with_args; Wait] _ Hrtc I).
Defined.


Lemma destructor_can_hang_witness :
  ∃ s,
    rtc (steps false quiet) (thread_pool 1 [Destroy]) s ∧
    undefined s = None ∧ shutdown_request s = true ∧
    threads s !! 0 = Some WBlocked ∧
    ∀ s', rtc (steps false quiet) s s' →
          owner s' = OJoin ∧ threads s' !! 0 = Some WBlocked.
Proof. exact (destructor_can_hang quiet 1 eq_refl). Defined.

End ThreadPoolSpec.

(** ** mt::unique *)

Module MtUniqueSpec.
Import MtUnique.

(** *** Runs on concrete ranges *)

(** The elements are equivalent when they fall in the same pair
    [2k, 2k+1]. *)
Definition same_pair (a b : N) : bool := (a / 2 =? b / 2)%N.

(** C2 fails on the code: the parts are deduplicated by [std::unique]
    without the predicate, so with [operator==].  The range [0, 1] is
    sorted and its two elements are equivalent under [same_pair], yet with
    one thread both survive; only the merge of two parts applies the
    predicate. *)
Lemma unique_ignores_predicate :
  same_pair 0 1 = true ∧
  (∃ m, unique N.eqb same_pair 1 (fresh [0; 1]%N) = Returned (2, m) ∧
        cells m = [0; 1]%N) ∧
  (∃ m, unique N.eqb same_pair 2 (fresh [0; 1]%N) = Returned (1, m) ∧
        cells m = [0; 1]%N).
Proof.
  split_and!; [by vm_compute|..];
    (eexists; split; [vm_compute; reflexivity|reflexivity]).
Qed.

(** With [operator==] as the predicate the parts and the merge agree:
    eight runs of three equal elements, deduplicated by four threads. *)
Lemma unique_scenario :
  ∃ m,
    unique N.eqb N.eqb 4
           (fresh (mjoin ((λ v, replicate 3 v) <$> [0; 1; 2; 3; 4; 5; 6; 7]%N)))
      = Returned (8, m) ∧
    take 8 (cells m) = [0; 1; 2; 3; 4; 5; 6; 7]%N ∧
    launched m = [(0, 6); (6, 12); (12, 18); (18, 24)].
Proof.
  eexists. split; [vm_compute; reflexivity|]. split; reflexivity.
Qed.

(** *** What [std::unique] and [std::copy] leave in the array *)

Section sequential.
Context {A : Type} (eqb : A → A → bool).
Implicit Types (l pre post : list A) (m : mem A).

(** The elements [std::unique] keeps after [prev], the last one kept:
    an element goes when it is equal to the last one kept. *)
Fixpoint compact (prev : A) l : list A :=
  match l with
  | [] => []
  | x :: l' => if eqb prev x then compact prev l' else x :: compact x l'
  end.

(** The elements [std::unique] keeps of a range. *)
Definition adjacent_unique l : list A :=
  match l with
  | [] => []
  | x :: l' => x :: compact x l'
  end.

Lemma bind_returned {X Y} (c : M A X) (f : X → M A Y) m x m' :
  c m = Returned (x, m') → (c ≫= f) m = f x m'.
Proof. intros Hc. unfold mbind, M_bind. by rewrite Hc. Qed.

Lemma read_at m l1 x l2 i :
  cells m = l1 ++ x :: l2 → i = length l1 →
  read i m = Returned (x, Mem (cells m) (i :: accesses m) (launched m)).
Proof. intros Hm ->. unfold read. by rewrite Hm, list_lookup_middle. Qed.

Lemma write_at m l1 y x l2 i :
  cells m = l1 ++ y :: l2 → i = length l1 →
  write i x m
    = Returned ((), Mem (l1 ++ x :: l2) (i :: accesses m) (launched m)).
Proof.
  intros Hm ->. unfold write. rewrite Hm.
  rewrite decide_True by (rewrite length_app; simpl; lia).
  by rewrite insert_app_r_alt, Nat.sub_diag by done.
Qed.

Lemma length_compact prev l : length (compact prev l) ≤ length l.
Proof.
  revert prev. induction l as [|x l IH]; intros prev; simpl; [done|].
  destruct (eqb prev x); simpl; [specialize (IH prev)|specialize (IH x)]; lia.
Qed.

(** The loop of [std::unique], entered with [result] on the last element
    kept, [r], and [first] on the last element looked at: the elements
    kept so far are followed by those kept of the rest. *)
Lemma unique_loop_spec rest m pre kept r gap post result first :
  cells m = pre ++ kept ++ [r] ++ gap ++ rest ++ post →
  result = length pre + length kept → first = result + length gap →
  ∃ m' junk,
    unique_loop eqb (length rest) result first m
      = Returned (S result + length (compact r rest), m') ∧
    cells m' = pre ++ kept ++ [r] ++ compact r rest ++ junk ++ post ∧
    length (compact r rest) + length junk = length gap + length rest ∧
    launched m' = launched m.
Proof.
  revert m kept r gap result first.
  induction rest as [|x rest IH]; intros m kept r gap result first Hm -> ->.
  { exists m, gap. simpl. rewrite !Nat.add_0_r. by split_and!. }
  cbn [unique_loop length compact].
  erewrite bind_returned; last first.
  { apply (read_at m (pre ++ kept) r (gap ++ (x :: rest) ++ post)).
    - by rewrite Hm, <-app_assoc.
    - by rewrite length_app. }
  erewrite bind_returned; last first.
  { apply (read_at _ (pre ++ kept ++ [r] ++ gap) x (rest ++ post)).
    - simpl. rewrite Hm. by rewrite <-!app_assoc.
    - rewrite !length_app. simpl. lia. }
  destruct (eqb r x) eqn:Hrx.
  - (* the element goes *)
    match goal with
    | |- ∃ _ _, unique_loop _ _ ?R ?F ?M = _ ∧ _ =>
      destruct (IH M kept r (gap ++ [x]) R F)
        as (m' & junk & Hrun & Hm' & Hlen & Hl)
    end.
    { simpl. rewrite Hm. by rewrite <-!app_assoc. }
    { done. }
    { rewrite ?length_app. simpl. lia. }
    exists m', junk. rewrite length_app in Hlen. simpl in *.
    split_and!; [done|done|lia|done].
  - (* the element is kept *)
    destruct gap as [|g gap].
    + rewrite decide_True by (simpl; lia).
      erewrite bind_returned by reflexivity.
      match goal with
      | |- ∃ _ _, unique_loop _ _ ?R ?F ?M = _ ∧ _ =>
        destruct (IH M (kept ++ [r]) x [] R F)
          as (m' & junk & Hrun & Hm' & Hlen & Hl)
      end.
      { simpl. rewrite Hm. by rewrite <-!app_assoc. }
      { rewrite ?length_app. simpl. lia. }
      { simpl. lia. }
      exists m', junk. simpl in *.
      split_and!; [|by rewrite Hm', <-!app_assoc|lia|done].
      rewrite Hrun. do 2 f_equal. lia.
    + rewrite decide_False by (simpl; lia).
      erewrite bind_returned; last first.
      { apply (write_at _ (pre ++ kept ++ [r]) g x
                        (gap ++ (x :: rest) ++ post)).
        - simpl. rewrite Hm. by rewrite <-!app_assoc.
        - rewrite !length_app. simpl. lia. }
      match goal with
      | |- ∃ _ _, unique_loop _ _ ?R ?F ?M = _ ∧ _ =>
        destruct (IH M (kept ++ [r]) x (gap ++ [x]) R F)
          as (m' & junk & Hrun & Hm' & Hlen & Hl)
      end.
      { simpl. by rewrite <-!app_assoc. }
      { rewrite ?length_app. simpl. lia. }
      { rewrite ?length_app. simpl. lia. }
      exists m', junk. rewrite !length_app in Hlen. simpl in *.
      split_and!; [|by rewrite Hm', <-!app_assoc|lia|done].
      rewrite Hrun. do 2 f_equal. lia.
Qed.

(** [std::unique] on the range that holds [l]: the elements kept come
    first, in place; what follows them inside the range is left over. *)
Lemma std_unique_spec l m pre post first last :
  cells m = pre ++ l ++ post →
  first = length pre → last = first + length l →
  ∃ m' junk,
    std_unique eqb first last m
      = Returned (first + length (adjacent_unique l), m') ∧
    cells m' = pre ++ adjacent_unique l ++ junk ++ post ∧
    length (adjacent_unique l) + length junk = length l ∧
    launched m' = launched m.
Proof.
  intros Hm -> ->. unfold std_unique. destruct l as [|x l].
  { rewrite decide_True by (simpl; lia).
    exists m, []. simpl. rewrite Nat.add_0_r. by split_and!. }
  rewrite decide_False by (simpl; lia).
  rewrite decide_False by (simpl; lia).
  destruct (unique_loop_spec l m pre [] x [] post (length pre) (length pre))
    as (m' & junk & Hrun & Hm' & Hlen & Hl); [done|simpl; lia..|].
  exists m', junk. simpl in *.
  replace (length pre + S (length l) - length pre - 1) with (length l) by lia.
  split_and!; [|done|lia|done].
  rewrite Hrun. do 2 f_equal. lia.
Qed.

(** The loop of [std::copy] towards lower positions: the source arrives
    at the destination, whatever stood between the two is left over. *)
Lemma copy_loop_spec src m pre hole post first d_first :
  cells m = pre ++ hole ++ src ++ post →
  d_first = length pre → first = d_first + length hole →
  ∃ m' junk,
    copy_loop (length src) first d_first m = Returned ((), m') ∧
    cells m' = pre ++ src ++ junk ++ post ∧
    length junk = length hole ∧
    launched m' = launched m.
Proof.
  revert m pre hole first d_first.
  induction src as [|x src IH]; intros m pre hole first d_first Hm -> ->.
  { exists m, hole. by split_and!. }
  cbn [copy_loop length].
  erewrite bind_returned; last first.
  { apply (read_at m (pre ++ hole) x (src ++ post)).
    - by rewrite Hm, <-app_assoc.
    - by rewrite length_app. }
  destruct hole as [|h hole].
  - erewrite bind_returned; last first.
    { apply (write_at _ pre x x (src ++ post)); [|done].
      simpl. by rewrite Hm. }
    match goal with
    | |- ∃ _ _, copy_loop _ ?F ?D ?M = _ ∧ _ =>
      destruct (IH M (pre ++ [x]) [] F D)
        as (m' & junk & Hrun & Hm' & Hlen & Hl)
    end.
    { simpl. by rewrite <-!app_assoc. }
    { rewrite ?length_app. simpl. lia. }
    { rewrite ?length_app. simpl. lia. }
    exists m', junk. simpl in *.
    split_and!; [done|by rewrite Hm', <-!app_assoc|done..].
  - erewrite bind_returned; last first.
    { apply (write_at _ pre h x (hole ++ (x :: src) ++ post)); [|done].
      simpl. by rewrite Hm. }
    match goal with
    | |- ∃ _ _, copy_loop _ ?F ?D ?M = _ ∧ _ =>
      destruct (IH M (pre ++ [x]) (hole ++ [x]) F D)
        as (m' & junk & Hrun & Hm' & Hlen & Hl)
    end.
    { simpl. by rewrite <-!app_assoc. }
    { rewrite ?length_app. simpl. lia. }
    { rewrite ?length_app. simpl. lia. }
    exists m', junk. rewrite length_app in Hlen. simpl in *.
    split_and!; [done|by rewrite Hm', <-!app_assoc|lia|done].
Qed.
End sequential.

(** *** The parts and their merge *)

Section parallel.
Context {A : Type} (eqb : A → A → bool).
Implicit Types (l pre post out hole : list A) (m : mem A).

(** The parts that lines 64-67 cut a range into: [n] of them, each of
    [part_size] elements but the last, which takes all that is left. *)
Fixpoint parts_of (part_size n : nat) l : list (list A) :=
  match n with
  | 0 => []
  | S n' =>
    match n' with
    | 0 => [l]
    | S _ => take part_size l :: parts_of part_size n' (drop part_size l)
    end
  end.

(** The ranges of these parts, the first of them being part [i]. *)
Fixpoint ranges_from (part_size i : nat) (parts : list (list A))
  : list (nat * nat) :=
  match parts with
  | [] => []
  | part :: parts' =>
    (part_size * i, part_size * i + length part)
      :: ranges_from part_size (S i) parts'
  end.

(** What a [std::unique] has left in its part: the elements it kept,
    then the leftovers. *)
Definition region : Type := list A * list A.

Fixpoint flat (rs : list region) : list A :=
  match rs with
  | [] => []
  | r :: rs' => r.1 ++ r.2 ++ flat rs'
  end.

(** The new ends the launched calls return, the first being part [i]'s. *)
Fixpoint ends_of (part_size i : nat) (rs : list region) : list nat :=
  match rs with
  | [] => []
  | r :: rs' => (part_size * i + length r.1) :: ends_of part_size (S i) rs'
  end.

Lemma launch_parts_spec part_size end_ threads_amount n (i : N) m done l :
  cells m = done ++ l → length done = part_size * N.to_nat i →
  N.to_nat threads_amount = N.to_nat i + n →
  end_ = length (cells m) →
  part_size * (n - 1) ≤ length l → (n = 0 → l = []) →
  ∃ m' rs,
    launch_parts eqb part_size end_ threads_amount n i m
      = Returned (ends_of part_size (N.to_nat i) rs, m') ∧
    cells m' = done ++ flat rs ∧
    Forall2 (λ part r, r.1 = adjacent_unique eqb part ∧
                       length r.1 + length r.2 = length part)
            (parts_of part_size n l) rs ∧
    launched m'
      = launched m ++ ranges_from part_size (N.to_nat i)
                                  (parts_of part_size n l).
Proof.
  revert i m done l.
  induction n as [|n IH]; intros i m done l Hm Hdone Hn Hend Hl Hnil.
  { exists m, []. rewrite Hm, (Hnil eq_refl). simpl.
    rewrite ?app_nil_r. by split_and!. }
  cbn [launch_parts].
  erewrite bind_returned by reflexivity.
  destruct n as [|n].
  - (* the last part *)
    rewrite decide_True by lia.
    destruct (std_unique_spec eqb l
                (Mem (cells m) (accesses m)
                     (launched m ++ [(part_size * N.to_nat i, end_)]))
                done [] (part_size * N.to_nat i) end_)
      as (m1 & junk & Hrun & Hm1 & Hlen & Hl1).
    { simpl. by rewrite app_nil_r. }
    { done. }
    { rewrite Hend, Hm, length_app. lia. }
    erewrite bind_returned by exact Hrun.
    erewrite bind_returned by reflexivity.
    exists m1, [(adjacent_unique eqb l, junk)]. simpl in *.
    rewrite ?app_nil_r in *.
    split_and!; [done|done|by repeat constructor|].
    rewrite Hl1. do 3 f_equal. rewrite Hend, Hm, length_app. lia.
  - (* a part of [part_size] elements *)
    rewrite decide_False by lia.
    assert (part_size ≤ length l) as Hps by (simpl in Hl; lia).
    assert (length (take part_size l) = part_size) as Hpart
      by (rewrite length_take; lia).
    destruct (std_unique_spec eqb (take part_size l)
                (Mem (cells m) (accesses m)
                     (launched m ++ [(part_size * N.to_nat i,
                                      part_size * (N.to_nat i + 1))]))
                done (drop part_size l) (part_size * N.to_nat i)
                (part_size * (N.to_nat i + 1)))
      as (m1 & junk & Hrun & Hm1 & Hlen & Hl1).
    { simpl. by rewrite take_drop. }
    { done. }
    { rewrite Hpart. lia. }
    erewrite bind_returned by exact Hrun.
    destruct (IH (i + 1)%N m1
                 (done ++ adjacent_unique eqb (take part_size l) ++ junk)
                 (drop part_size l))
      as (m' & rs & Hrun' & Hm' & Hrs & Hl').
    { by rewrite Hm1, <-!app_assoc. }
    { rewrite !length_app. lia. }
    { lia. }
    { rewrite Hend, Hm1, Hm, !length_app, length_drop. rewrite Hpart in Hlen.
      lia. }
    { rewrite length_drop. simpl in *. lia. }
    { done. }
    erewrite bind_returned by exact Hrun'.
    exists m', ((adjacent_unique eqb (take part_size l), junk) :: rs).
    cbn [ends_of flat fst snd parts_of ranges_from].
    replace (N.to_nat (i + 1)) with (S (N.to_nat i)) in * by lia.
    split_and!.
    + done.
    + by rewrite Hm', <-!app_assoc.
    + constructor; [split; [done|simpl; lia]|done].
    + rewrite Hl', Hl1. simpl. rewrite <-app_assoc. simpl.
      do 3 f_equal. rewrite Hpart. lia.
Qed.
(** The part that has just been deduplicated joins the output: without
    its first element when the predicate holds between that element and
    the last element of the output. *)
Definition skip_first (p : A → A → bool) out (u : list A) : list A :=
  match u, last out with
  | x :: u', Some y => if p x y then u' else u
  | _, _ => u
  end.

Fixpoint merged (p : A → A → bool) out (us : list (list A)) : list A :=
  match us with
  | [] => out
  | u :: us' => merged p (out ++ skip_first p out u) us'
  end.

(** Every part but the last has [part_size] elements. *)
Fixpoint full (part_size : nat) (rs : list region) : Prop :=
  match rs with
  | [] => True
  | r :: rs' =>
    (rs' ≠ [] → length r.1 + length r.2 = part_size) ∧ full part_size rs'
  end.

Lemma merge_parts_spec p part_size rs i out hole m :
  cells m = out ++ hole ++ flat rs →
  (rs ≠ [] → length out + length hole = part_size * i) →
  out ≠ [] → Forall (λ r : region, r.1 ≠ []) rs → full part_size rs →
  ∃ m' rest,
    merge_parts p part_size (ends_of part_size i rs) i (length out) m
      = Returned (length (merged p out rs.*1), m') ∧
    cells m' = merged p out rs.*1 ++ rest ∧
    length (cells m') = length (cells m) ∧
    launched m' = launched m.
Proof.
  revert i out hole m.
  induction rs as [|[u j] rs IH]; intros i out hole m Hm Hi Hout Hne Hfull.
  { exists m, hole. simpl in *. rewrite app_nil_r in Hm. by split_and!. }
  apply Forall_cons in Hne as [Hu Hne]. destruct Hfull as [Hsize Hfull].
  destruct u as [|x u]; [done|]. clear Hu.
  specialize (Hi ltac:(done)).
  destruct (proj2 (last_is_Some out) Hout) as [y Hy].
  apply last_Some in Hy as Hout'. destruct Hout' as [out' ->].
  rewrite length_app in *. simpl in *.
  erewrite bind_returned; last first.
  { apply (read_at m ((out' ++ [y]) ++ hole) x (u ++ j ++ flat rs)).
    - rewrite Hm. by rewrite <-!app_assoc.
    - rewrite !length_app. simpl. lia. }
  rewrite decide_False by lia.
  erewrite bind_returned; last first.
  { apply (read_at _ out' y (hole ++ (x :: u) ++ j ++ flat rs)).
    - simpl. rewrite Hm. by rewrite <-!app_assoc.
    - lia. }
  unfold skip_first. rewrite Hy. unfold std_copy.
  destruct (p x y) eqn:Hp.
  - (* the first element is left out *)
    rewrite decide_False by lia.
    match goal with
    | |- ∃ _ _, (copy_loop _ ?F ?D ≫= _) ?M = _ ∧ _ =>
      destruct (copy_loop_spec u M (out' ++ [y]) (hole ++ [x])
                               (j ++ flat rs) F D)
        as (m1 & junk & Hrun & Hm1 & Hlen & Hl1)
    end.
    { simpl. rewrite Hm. by rewrite <-!app_assoc. }
    { rewrite length_app. simpl. lia. }
    { rewrite !length_app. simpl. lia. }
    replace (part_size * i + S (length u) - S (part_size * i))
      with (length u) by lia.
    erewrite bind_returned by exact Hrun.
    destruct (IH (S i) ((out' ++ [y]) ++ u) (junk ++ j) m1)
      as (m' & rest & Hrun' & Hm' & Hlen' & Hl'); [| |by destruct out'|done..|].
    { rewrite Hm1. by rewrite <-!app_assoc. }
    { intros Hrs. specialize (Hsize Hrs).
      rewrite !length_app, Hlen, length_app. simpl. lia. }
    exists m', rest. rewrite !length_app in Hrun'. simpl in *.
    replace (length out' + 1 + (part_size * i + S (length u)
                                - S (part_size * i)))
      with (length out' + 1 + length u) by lia.
    split_and!; [done|done| |congruence].
    rewrite Hlen', Hm1, Hm, !length_app. simpl.
    rewrite !length_app, Hlen, length_app. simpl. lia.
  - (* the part joins whole *)
    rewrite decide_False by lia.
    match goal with
    | |- ∃ _ _, (copy_loop _ ?F ?D ≫= _) ?M = _ ∧ _ =>
      destruct (copy_loop_spec (x :: u) M (out' ++ [y]) hole
                               (j ++ flat rs) F D)
        as (m1 & junk & Hrun & Hm1 & Hlen & Hl1)
    end.
    { simpl. rewrite Hm. by rewrite <-!app_assoc. }
    { rewrite length_app. simpl. lia. }
    { lia. }
    replace (part_size * i + S (length u) - part_size * i)
      with (length (x :: u)) by (simpl; lia).
    erewrite bind_returned by exact Hrun.
    destruct (IH (S i) ((out' ++ [y]) ++ x :: u) (junk ++ j) m1)
      as (m' & rest & Hrun' & Hm' & Hlen' & Hl'); [| |by destruct out'|done..|].
    { rewrite Hm1. by rewrite <-!app_assoc. }
    { intros Hrs. specialize (Hsize Hrs).
      rewrite !length_app, Hlen. simpl. lia. }
    exists m', rest. rewrite !length_app in Hrun'. simpl in *.
    replace (length out' + 1 + (part_size * i + S (length u)
                                - part_size * i))
      with (length out' + 1 + S (length u)) by lia.
    split_and!; [done|done| |congruence].
    rewrite Hlen', Hm1, Hm, !length_app. simpl.
    rewrite !length_app, Hlen. simpl. lia.
Qed.
Lemma regions_full part_size n l (rs : list region) :
  1 ≤ part_size → part_size * n ≤ length l →
  Forall2 (λ part r, r.1 = adjacent_unique eqb part ∧
                     length r.1 + length r.2 = length part)
          (parts_of part_size n l) rs →
  Forall (λ r : region, r.1 ≠ []) rs ∧ full part_size rs.
Proof.
  intros Hps. revert l rs.
  induction n as [|n IH]; intros l rs Hl Hrs.
  { apply Forall2_nil_inv_l in Hrs as ->. by split. }
  cbn [parts_of] in Hrs. destruct n as [|n].
  - apply Forall2_cons_inv_l in Hrs as (r & rs' & [Hr _] & Hrs & ->).
    apply Forall2_nil_inv_l in Hrs as ->.
    split; [|by split].
    constructor; [|done]. rewrite Hr. destruct l; [simpl in *; lia|done].
  - apply Forall2_cons_inv_l in Hrs as (r & rs' & [Hr Hlen] & Hrs & ->).
    assert (part_size ≤ length l) by lia.
    rewrite length_take, Nat.min_l in Hlen by done.
    destruct (IH (drop part_size l) rs') as [Hne Hfull]; [|done|].
    { rewrite length_drop. lia. }
    split; [|by split].
    constructor; [|done]. rewrite Hr.
    destruct l as [|x l]; [simpl in *; lia|].
    destruct part_size; [lia|done].
Qed.

Lemma length_flat part_size n l (rs : list region) :
  0 < n →
  Forall2 (λ part r, r.1 = adjacent_unique eqb part ∧
                     length r.1 + length r.2 = length part)
          (parts_of part_size n l) rs →
  length (flat rs) = length l.
Proof.
  revert l rs. induction n as [|n IH]; intros l rs Hn Hrs; [lia|].
  cbn [parts_of] in Hrs. destruct n as [|n].
  - apply Forall2_cons_inv_l in Hrs as (r & rs' & [_ Hr] & Hrs & ->).
    apply Forall2_nil_inv_l in Hrs as ->. simpl.
    rewrite !length_app. simpl. lia.
  - apply Forall2_cons_inv_l in Hrs as (r & rs' & [_ Hr] & Hrs & ->).
    simpl. rewrite !length_app, (IH (drop part_size l)) by (done || lia).
    rewrite length_drop. rewrite length_take in Hr. lia.
Qed.

Lemma regions_kept (f : list A → list A) (P : list A → region → Prop)
                   parts (rs : list region) :
  Forall2 (λ part r, r.1 = f part ∧ P part r) parts rs → f <$> parts = rs.*1.
Proof.
  induction 1 as [|part r parts rs [Hr _] _ IH]; csimpl; [done|].
  by rewrite Hr, IH.
Qed.

(** [unique] on a range with at least as many elements as threads: the
    parts are deduplicated where they stand and then merged towards the
    start of the range. *)
Lemma unique_spec p (threads_amount : N) l :
  threads_amount ≠ 0%N → (threads_amount ≤ N.of_nat (length l))%N →
  let part_size := N.to_nat (N.of_nat (length l) / threads_amount) in
  let parts := parts_of part_size (N.to_nat threads_amount) l in
  ∃ m' u us rest,
    adjacent_unique eqb <$> parts = u :: us ∧
    unique eqb p threads_amount (fresh l)
      = Returned (length (merged p u us), m') ∧
    cells m' = merged p u us ++ rest ∧
    length (cells m') = length l ∧
    launched m' = ranges_from part_size 0 parts.
Proof.
  intros Hn Hle part_size parts.
  assert (1 ≤ part_size) as Hps.
  { unfold part_size.
    pose proof (N.div_str_pos (N.of_nat (length l)) threads_amount). lia. }
  assert (part_size * N.to_nat threads_amount ≤ length l) as Hparts.
  { unfold part_size. rewrite <-N2Nat.inj_mul.
    pose proof (N.Div0.mul_div_le (N.of_nat (length l)) threads_amount).
    lia. }
  destruct (launch_parts_spec part_size (length l) threads_amount
              (N.to_nat threads_amount) 0 (fresh l) [] l)
    as (m1 & rs & Hlaunch & Hm1 & Hrs & Hl1); [done|simpl; lia|lia|done| |lia|].
  { etrans; [|exact Hparts]. apply Nat.mul_le_mono_l. lia. }
  destruct (regions_full _ _ _ _ Hps Hparts Hrs) as [Hne Hfull].
  pose proof (regions_kept _ _ _ _ Hrs) as Hkept. fold parts in Hkept, Hrs, Hl1.
  destruct rs as [|[u j] rs].
  { apply Forall2_nil_inv_r in Hrs. unfold parts in Hrs.
    destruct (N.to_nat threads_amount) as [|[|?]] eqn:?; [lia|done..]. }
  apply Forall_cons in Hne as [Hu Hne]. destruct Hfull as [Hsize Hfull].
  simpl in *.
  destruct (merge_parts_spec p part_size rs 1 u j m1)
    as (m' & rest & Hmerge & Hm' & Hlen & Hl'); [done| |done..|].
  { intros Hrs'. specialize (Hsize Hrs'). lia. }
  exists m', u, (rs.*1), rest. split_and!; [done| |done| |by rewrite Hl', Hl1].
  - unfold unique. simpl. rewrite decide_False by done.
    fold part_size. erewrite bind_returned by exact Hlaunch.
    rewrite Nat.mul_0_r. simpl. exact Hmerge.
  - rewrite Hlen, Hm1. simpl.
    apply (length_flat part_size (N.to_nat threads_amount) l ((u, j) :: rs));
      [lia|done].
Qed.
End parallel.

(** *** What [unique] returns *)

Section results.
Context {A : Type} (eqb : A → A → bool).
Implicit Types (l out u : list A) (p : A → A → bool).

Lemma compact_sublist prev l : compact eqb prev l `sublist_of` l.
Proof.
  revert prev. induction l as [|x l IH]; intros prev; simpl; [done|].
  destruct (eqb prev x); [by apply sublist_cons|by apply sublist_skip].
Qed.

Lemma adjacent_unique_sublist l : adjacent_unique eqb l `sublist_of` l.
Proof. destruct l; simpl; [done|]. apply sublist_skip, compact_sublist. Qed.

Lemma skip_first_sublist p out u : skip_first p out u `sublist_of` u.
Proof.
  unfold skip_first. destruct u as [|x u]; [done|].
  destruct (last out); [|done]. destruct (p x a); [|done].
  by apply sublist_cons.
Qed.

Lemma merged_sublist p out us l0 ls :
  out `sublist_of` l0 → Forall2 sublist us ls →
  merged p out us `sublist_of` l0 ++ mjoin ls.
Proof.
  intros Hout Hus. revert out l0 Hout.
  induction Hus as [|u l us ls Hu _ IH]; intros out l0 Hout; csimpl.
  { by rewrite app_nil_r. }
  rewrite app_assoc. apply IH, sublist_app; [done|].
  etrans; [apply skip_first_sublist|done].
Qed.

Lemma length_merged p out us : length out ≤ length (merged p out us).
Proof.
  revert out. induction us as [|u us IH]; intros out; simpl; [done|].
  etrans; [|apply IH]. rewrite length_app. lia.
Qed.

Lemma parts_of_join part_size n l :
  0 < n → mjoin (parts_of part_size n l) = l.
Proof.
  revert l. induction n as [|n IH]; intros l Hn; [lia|].
  destruct n as [|n].
  - simpl. by rewrite app_nil_r.
  - change (take part_size l ++ mjoin (parts_of part_size (S n)
                                                (drop part_size l)) = l).
    rewrite IH by lia. apply take_drop.
Qed.

Lemma parts_of_nonempty part_size n l : 0 < n → parts_of part_size n l ≠ [].
Proof. intros Hn. destruct n as [|[|n]]; [lia|done..]. Qed.

Lemma first_part_nonempty part_size n l part parts :
  1 ≤ part_size → part_size * n ≤ length l →
  parts_of part_size n l = part :: parts → part ≠ [].
Proof.
  intros Hps Hl Hp. destruct n as [|[|n]]; simpl in Hp; [done|..].
  - injection Hp as <- _. destruct l; simpl in *; [lia|done].
  - injection Hp as <- _. destruct l; simpl in *; [lia|].
    by destruct part_size; [lia|].
Qed.

Lemma part_size_bounds (threads_amount : N) l :
  threads_amount ≠ 0%N → (threads_amount ≤ N.of_nat (length l))%N →
  1 ≤ N.to_nat (N.of_nat (length l) / threads_amount) ∧
  N.to_nat (N.of_nat (length l) / threads_amount) * N.to_nat threads_amount
    ≤ length l.
Proof.
  intros Hn Hle. split.
  - pose proof (N.div_str_pos (N.of_nat (length l)) threads_amount). lia.
  - rewrite <-N2Nat.inj_mul.
    pose proof (N.Div0.mul_div_le (N.of_nat (length l)) threads_amount).
    lia.
Qed.

(** X14.  Whatever the predicate, [unique] on a range with at least as
    many elements as threads returns, leaves the length of the array
    alone, and only ever drops elements: the range up to the new end is
    not empty and is a subsequence of the range it was given. *)
Theorem unique_keeps_subsequence p (threads_amount : N) l :
  threads_amount ≠ 0%N → (threads_amount ≤ N.of_nat (length l))%N →
  ∃ n m',
    unique eqb p threads_amount (fresh l) = Returned (n, m') ∧
    0 < n ≤ length l ∧ length (cells m') = length l ∧
    take n (cells m') `sublist_of` l.
Proof.
  intros Hn Hle.
  destruct (unique_spec eqb p threads_amount l Hn Hle)
    as (m' & u & us & rest & Hparts & Hrun & Hm' & Hlen & _).
  destruct (part_size_bounds threads_amount l Hn Hle) as [Hps Hall].
  pose proof (parts_of_join (N.to_nat (N.of_nat (length l) / threads_amount))
                (N.to_nat threads_amount) l ltac:(lia)) as Hjoin.
  destruct (parts_of _ _ l) as [|part parts] eqn:Hp; simplify_eq/=.
  apply first_part_nonempty in Hp; [|done..].
  assert (merged p (adjacent_unique eqb part) (adjacent_unique eqb <$> parts)
            `sublist_of` part ++ mjoin parts) as Hsub.
  { apply merged_sublist; [apply adjacent_unique_sublist|].
    apply Forall2_fmap_l, Forall_Forall2_diag, Forall_forall.
    intros ? _. apply adjacent_unique_sublist. }
  eexists _, m'. split_and!; [done| | |done|].
  - pose proof (length_merged p (adjacent_unique eqb part)
                  (adjacent_unique eqb <$> parts)).
    destruct part; simpl in *; [done|lia].
  - by apply sublist_length.
  - by rewrite Hm', take_app_length.
Qed.
End results.

(** *** The overload that compares with [operator==] *)

Section equal_to.
Context {A : Type} (eqb : A → A → bool).
Context (eqb_sym : ∀ x y, eqb x y = eqb y x).
Context (eqb_trans : ∀ x y z, eqb x y = true → eqb y z = true → eqb x z = true).
Implicit Types (l : list A).

Lemma compact_congr y z l :
  eqb y z = true → compact eqb y l = compact eqb z l.
Proof.
  intros Hyz. induction l as [|w l IH]; simpl; [done|].
  assert (eqb y w = eqb z w) as ->.
  { destruct (eqb y w) eqn:Hyw, (eqb z w) eqn:Hzw; try done.
    - rewrite <-Hzw. symmetry. apply (eqb_trans z y w); [|done].
      by rewrite eqb_sym.
    - rewrite <-Hyw. by apply (eqb_trans y z w). }
  by destruct (eqb z w).
Qed.

Lemma compact_app r l1 l2 :
  compact eqb r (l1 ++ l2)
    = compact eqb r l1
      ++ compact eqb (default r (last (compact eqb r l1))) l2.
Proof.
  revert r. induction l1 as [|x l1 IH]; intros r; simpl; [done|].
  destruct (eqb r x); [apply IH|].
  simpl. rewrite IH. do 3 f_equal.
  rewrite last_cons. by destruct (last (compact eqb x l1)).
Qed.

Lemma adjacent_unique_app l1 l2 :
  l1 ≠ [] →
  adjacent_unique eqb (l1 ++ l2)
    = adjacent_unique eqb l1
      ++ skip_first eqb (adjacent_unique eqb l1) (adjacent_unique eqb l2).
Proof.
  destruct l1 as [|x l1]; [done|]. intros _. simpl.
  rewrite compact_app. do 2 f_equal.
  destruct l2 as [|z l2]; [done|].
  unfold skip_first. simpl adjacent_unique. rewrite last_cons.
  destruct (last (compact eqb x l1)) as [y|]; simpl.
  - rewrite (eqb_sym z y).
    destruct (eqb y z) eqn:Hyz; [by apply compact_congr|done].
  - rewrite (eqb_sym z x).
    destruct (eqb x z) eqn:Hxz; [by apply compact_congr|done].
Qed.

Lemma merged_equal_to l0 ls :
  l0 ≠ [] →
  merged eqb (adjacent_unique eqb l0) (adjacent_unique eqb <$> ls)
    = adjacent_unique eqb (l0 ++ mjoin ls).
Proof.
  revert l0. induction ls as [|u ls IH]; intros l0 Hl0; csimpl.
  { by rewrite app_nil_r. }
  rewrite <-adjacent_unique_app by done.
  rewrite IH by (by destruct l0). by rewrite app_assoc.
Qed.

(** X13.  What the tests [test_unique] assert.  When [operator==] is
    symmetric and transitive, the overload of [unique] without a
    predicate, on a range with at least as many elements as threads,
    returns the new end that [std::unique] returns on the whole range
    and leaves the same elements before it: the first element of every
    run of equal elements, in order. *)
Theorem unique_equal_to_is_std_unique (threads_amount : N) l :
  threads_amount ≠ 0%N → (threads_amount ≤ N.of_nat (length l))%N →
  ∃ n m' m_seq,
    unique_equal_to eqb threads_amount (fresh l) = Returned (n, m') ∧
    std_unique eqb 0 (length l) (fresh l) = Returned (n, m_seq) ∧
    take n (cells m') = adjacent_unique eqb l ∧
    take n (cells m_seq) = adjacent_unique eqb l.
Proof.
  intros Hn Hle.
  destruct (unique_spec eqb eqb threads_amount l Hn Hle)
    as (m' & u & us & rest & Hparts & Hrun & Hm' & Hlen & _).
  destruct (part_size_bounds threads_amount l Hn Hle) as [Hps Hall].
  pose proof (parts_of_join (N.to_nat (N.of_nat (length l) / threads_amount))
                (N.to_nat threads_amount) l ltac:(lia)) as Hjoin.
  destruct (parts_of _ _ l) as [|part parts] eqn:Hp; simplify_eq/=.
  apply first_part_nonempty in Hp; [|done..].
  rewrite merged_equal_to in Hrun, Hm' by done.
  destruct (std_unique_spec eqb (part ++ mjoin parts)
              (fresh (part ++ mjoin parts)) [] [] 0
              (length (part ++ mjoin parts)))
    as (m_seq & junk & Hseq & Hm_seq & _ & _).
  { simpl. by rewrite app_nil_r. }
  { done. }
  { done. }
  simpl in *. rewrite app_nil_r in Hm_seq.
  exists (length (adjacent_unique eqb (part ++ mjoin parts))), m', m_seq.
  split_and!; [done|done|..].
  - by rewrite Hm', take_app_length.
  - by rewrite Hm_seq, take_app_length.
Qed.
End equal_to.

(** *** The launches, and thread counts that do not fit the range *)

Section launches.
Context {A : Type} (eqb : A → A → bool).
Implicit Types (l : list A) (p : A → A → bool).

(** The positions of the range [[b, e)]. *)
Definition positions (be : nat * nat) : list nat := seq be.1 (be.2 - be.1).

Lemma length_ranges_from part_size i (parts : list (list A)) :
  length (ranges_from part_size i parts) = length parts.
Proof.
  revert i. induction parts as [|part parts IH]; intros i; simpl; [done|].
  by rewrite IH.
Qed.

Lemma length_parts_of part_size n l : length (parts_of part_size n l) = n.
Proof.
  revert l. induction n as [|n IH]; intros l; [done|].
  destruct n as [|n]; [done|].
  change (S (length (parts_of part_size (S n) (drop part_size l))) = S (S n)).
  by rewrite IH.
Qed.

Lemma ranges_tile part_size n i l :
  0 < n → part_size * (n - 1) ≤ length l →
  mjoin (positions <$> ranges_from part_size i (parts_of part_size n l))
    = seq (part_size * i) (length l).
Proof.
  revert i l. induction n as [|n IH]; intros i l Hn Hl; [lia|].
  destruct n as [|n].
  - simpl. unfold positions. simpl. rewrite app_nil_r. f_equal. lia.
  - change (positions (part_size * i,
                       part_size * i + length (take part_size l))
            ++ mjoin (positions <$> ranges_from part_size (S i)
                        (parts_of part_size (S n) (drop part_size l)))
            = seq (part_size * i) (length l)).
    assert (part_size ≤ length l) as Hps by (simpl in Hl; lia).
    rewrite IH by (rewrite ?length_drop; simpl in *; lia).
    unfold positions. simpl. rewrite length_take, Nat.min_l by done.
    replace (part_size * i + part_size - part_size * i) with part_size by lia.
    replace (part_size * S i) with (part_size * i + part_size) by lia.
    rewrite <-seq_app, length_drop. f_equal. lia.
Qed.

(** X15.  On a range with at least as many elements as threads, lines
    64-69 launch exactly one [std::unique] per thread, and the ranges
    handed to them, taken in launch order, go through the positions of
    the range from first to last, each position once: the parts are
    adjacent, do not overlap and leave nothing out. *)
Theorem unique_parts_tile p (threads_amount : N) l :
  threads_amount ≠ 0%N → (threads_amount ≤ N.of_nat (length l))%N →
  ∃ n m',
    unique eqb p threads_amount (fresh l) = Returned (n, m') ∧
    length (launched m') = N.to_nat threads_amount ∧
    mjoin (positions <$> launched m') = seq 0 (length l).
Proof.
  intros Hn Hle.
  destruct (unique_spec eqb p threads_amount l Hn Hle)
    as (m' & u & us & rest & _ & Hrun & _ & _ & Hl).
  destruct (part_size_bounds threads_amount l Hn Hle) as [Hps Hall].
  eexists _, m'. split; [done|]. rewrite Hl. split.
  - by rewrite length_ranges_from, length_parts_of.
  - rewrite ranges_tile; [by rewrite Nat.mul_0_r|lia|].
    etrans; [|exact Hall]. apply Nat.mul_le_mono_l. lia.
Qed.

(** With two or more threads and fewer elements than threads, the first
    part is empty and line 75 reads the element before the start of the
    range. *)
Lemma unique_too_many_threads p (threads_amount : N) l :
  (2 ≤ threads_amount)%N → (N.of_nat (length l) < threads_amount)%N →
  unique eqb p threads_amount (fresh l) = Undefined OutOfRange.
Proof.
  intros Hn Hlt. unfold unique. simpl. rewrite decide_False by lia.
  rewrite N.div_small by done. simpl.
  destruct (launch_parts_spec eqb 0 (length l) threads_amount
              (N.to_nat threads_amount) 0 (fresh l) [] l)
    as (m1 & rs & Hlaunch & Hm1 & Hrs & _); [done|simpl; lia|lia|done|lia|lia|].
  erewrite bind_returned by exact Hlaunch.
  destruct (N.to_nat threads_amount) as [|[|n]] eqn:Ht; [lia..|].
  cbn [parts_of] in Hrs.
  apply Forall2_cons_inv_l in Hrs as (r0 & rs0 & [Hr0 _] & Hrs & ->).
  destruct n as [|n]; cbn [parts_of] in Hrs;
    apply Forall2_cons_inv_l in Hrs as (r1 & rs1 & _ & _ & ->).
  all: rewrite take_0 in Hr0; simpl in Hr0.
  all: cbn [ends_of]; rewrite Hr0; simpl.
  all: unfold mbind, M_bind, read; simpl.
  all: by destruct (cells m1 !! 0).
Qed.

(** X16.  Thread counts that do not fit the range.  With a thread count
    of zero [unique] divides by zero at line 62, whatever the range.
    With two or more threads and fewer elements than threads every part
    but the last is empty, and line 75 reads the element before the
    start of the range. *)
Theorem unique_invalid_thread_count p (threads_amount : N) l :
  (threads_amount = 0%N →
   unique eqb p threads_amount (fresh l) = Undefined DivisionByZero) ∧
  ((2 ≤ threads_amount)%N → (N.of_nat (length l) < threads_amount)%N →
   unique eqb p threads_amount (fresh l) = Undefined OutOfRange).
Proof.
  split.
  - intros ->. done.
  - apply unique_too_many_threads.
Qed.

(** C7 fails on the code.  On an empty range [unique] with two or more
    threads, which is what the default thread count gives on a machine
    with two or more cores, reads the element at [begin] and the one
    before it at line 75: both lie outside the range.  With one thread it
    returns [begin] without touching an element, yet has launched one
    [std::async] over the empty range. *)
Theorem empty_range_read_out_of_range p (more : N) :
  unique eqb p (more + 2) (fresh []) = Undefined OutOfRange ∧
  unique eqb p 1 (fresh []) = Returned (0, Mem [] [] [(0, 0)]).
Proof.
  split; [|done].
  apply unique_too_many_threads; simpl; lia.
Qed.
End launches.

(** *** Sorting, then removing the duplicates *)

Section composition.
Context {A : Type} `{!MtSort.StdAlgorithms A}.
Context (less eqb : A → A → bool).
Context (Hswo : MtSort.StrictWeakOrder less).
Context (less_total : ∀ x y, less x y = false → less y x = false → x = y).
Context (eqb_eq : ∀ x y, eqb x y = true ↔ x = y).
Implicit Types (l : list A).

(** Each element compares before the next one. *)
Definition increasing l : Prop :=
  ∀ i x y, l !! i = Some x → l !! S i = Some y → less x y = true.

Lemma compact_elements prev l x :
  x ∈ prev :: compact eqb prev l ↔ x ∈ prev :: l.
Proof.
  revert prev. induction l as [|w l IH]; intros prev; simpl; [done|].
  destruct (eqb prev w) eqn:Hw.
  - apply eqb_eq in Hw as <-. rewrite IH. set_solver.
  - rewrite !(elem_of_cons _ x prev), IH. done.
Qed.

Lemma adjacent_unique_elements l x : x ∈ adjacent_unique eqb l ↔ x ∈ l.
Proof. destruct l; simpl; [done|]. apply compact_elements. Qed.

Lemma compact_increasing prev l :
  MtSort.nondecreasing less (prev :: l) →
  increasing (prev :: compact eqb prev l).
Proof.
  revert prev. induction l as [|w l IH]; intros prev Hl; simpl.
  { by intros [|i] x y ? ?. }
  assert (MtSort.nondecreasing less (w :: l)) as Hl'.
  { intros i a b Ha Hb. by apply (Hl (S i)). }
  destruct (eqb prev w) eqn:Hw.
  - apply eqb_eq in Hw as <-. by apply IH.
  - intros [|i] x y Hx Hy; simplify_eq/=.
    + destruct (less x y) eqn:Hxy; [done|].
      assert (x = y) as ->; [|by rewrite (proj2 (eqb_eq y y)) in Hw].
      apply less_total; [done|]. by apply (Hl 0).
    + by apply (IH w Hl' i).
Qed.

Lemma adjacent_unique_increasing l :
  MtSort.nondecreasing less l → increasing (adjacent_unique eqb l).
Proof.
  destruct l as [|x l]; simpl; [by intros _ [|i] ????|].
  apply compact_increasing.
Qed.

(** X17.  The two steps that precede the assertions of [test_unique],
    for an element type whose [operator<] is a strict total order and
    whose [operator==] is equality.  Once the tasks of [sort] have all run
    on a range, in whatever order, [unique] without a predicate, called on
    it with a valid thread count, returns, and the range up to the new
    end holds the elements of the input, each once, in strictly
    increasing order. *)
Theorem sort_then_unique v chunk_size st (unique_threads : N) :
  MtSort.Conforming A →
  rtc (MtSort.pool_step (Some (chunk_size, less)))
      (MtSort.PoolState v [(0, length v)]) st →
  MtSort.task_queue st = [] →
  unique_threads ≠ 0%N → (unique_threads ≤ N.of_nat (length v))%N →
  ∃ n m',
    unique_equal_to eqb unique_threads (fresh (MtSort.cells st))
      = Returned (n, m') ∧
    increasing (take n (cells m')) ∧
    ∀ x, x ∈ take n (cells m') ↔ x ∈ v.
Proof.
  intros Hstd Hrtc Hq Hn Hle.
  destruct (MtSortSpec.drained_run v less chunk_size st Hstd Hswo Hrtc Hq)
    as [Hperm Hord].
  destruct st as [arr q]; simpl in *. clear Hrtc Hq.
  assert (length arr = length v) as Hlen by (by rewrite Hperm).
  rewrite <-Hlen in Hle.
  destruct (unique_spec eqb eqb unique_threads arr Hn Hle)
    as (m' & u & us & rest & Hparts & Hrun & Hm' & _ & _).
  destruct (part_size_bounds unique_threads arr Hn Hle) as [Hps Hall].
  pose proof (parts_of_join
                (N.to_nat (N.of_nat (length arr) / unique_threads))
                (N.to_nat unique_threads) arr ltac:(lia)) as Hjoin.
  destruct (parts_of _ _ arr) as [|part parts] eqn:Hp; simplify_eq/=.
  apply first_part_nonempty in Hp; [|done..].
  assert (∀ x y, eqb x y = eqb y x) as Hsym.
  { intros x y. destruct (eqb x y) eqn:Hxy, (eqb y x) eqn:Hyx; try done.
    - apply eqb_eq in Hxy as ->. by rewrite (proj2 (eqb_eq y y)) in Hyx.
    - apply eqb_eq in Hyx as ->. by rewrite (proj2 (eqb_eq x x)) in Hxy. }
  assert (∀ x y z, eqb x y = true → eqb y z = true → eqb x z = true)
    as Htrans.
  { intros x y z ->%eqb_eq ->%eqb_eq. by apply eqb_eq. }
  rewrite merged_equal_to in Hrun, Hm' by done.
  eexists _, m'.
  split_and!; [done|..]; rewrite Hm', take_app_length.
  - by apply adjacent_unique_increasing.
  - intros x. by rewrite adjacent_unique_elements, Hperm.
Qed.
End composition.

(** *** Removing the duplicates twice *)

Section twice.
Context {A : Type} (eqb : A → A → bool).
Context (eqb_sym : ∀ x y, eqb x y = eqb y x).
Context (eqb_trans : ∀ x y z, eqb x y = true → eqb y z = true → eqb x z = true).
Implicit Types (l : list A).

Lemma compact_twice prev l :
  compact eqb prev (compact eqb prev l) = compact eqb prev l.
Proof.
  revert prev. induction l as [|x l IH]; intros prev; simpl; [done|].
  destruct (eqb prev x) eqn:Hx; [done|].
  simpl. by rewrite Hx, IH.
Qed.

Lemma adjacent_unique_twice l :
  adjacent_unique eqb (adjacent_unique eqb l) = adjacent_unique eqb l.
Proof. destruct l; simpl; [done|]. by rewrite compact_twice. Qed.

(** X18.  [unique] without a predicate has nothing left to do on its
    own result: once the range has been cut at the new end, as the
    tests do with [resize], a second call, with any thread count that
    fits, returns the end of that range and leaves every element where
    it is. *)
Theorem unique_equal_to_twice (threads_amount again : N) l n m1 :
  threads_amount ≠ 0%N → (threads_amount ≤ N.of_nat (length l))%N →
  unique_equal_to eqb threads_amount (fresh l) = Returned (n, m1) →
  again ≠ 0%N → (again ≤ N.of_nat n)%N →
  ∃ m2,
    unique_equal_to eqb again (fresh (take n (cells m1))) = Returned (n, m2) ∧
    cells m2 = take n (cells m1).
Proof.
  intros Hn Hle Hrun Hn' Hle'.
  assert (n = length (adjacent_unique eqb l) ∧
          take n (cells m1) = adjacent_unique eqb l) as [-> Hm1].
  { destruct (unique_spec eqb eqb threads_amount l Hn Hle)
      as (m' & u & us & rest & Hparts & Hrun' & Hm' & _ & _).
    destruct (part_size_bounds threads_amount l Hn Hle) as [Hps Hall].
    pose proof (parts_of_join
                  (N.to_nat (N.of_nat (length l) / threads_amount))
                  (N.to_nat threads_amount) l ltac:(lia)) as Hjoin.
    destruct (parts_of _ _ l) as [|part parts] eqn:Hp; simplify_eq/=.
    apply first_part_nonempty in Hp; [|done..].
    rewrite merged_equal_to in Hrun', Hm' by done.
    unfold unique_equal_to in Hrun. rewrite Hrun' in Hrun.
    injection Hrun as <- <-. by rewrite Hm', take_app_length. }
  rewrite Hm1.
  destruct (unique_spec eqb eqb again (adjacent_unique eqb l) Hn' Hle')
    as (m2 & u & us & rest & Hparts & Hrun2 & Hm2 & Hlen2 & _).
  destruct (part_size_bounds again (adjacent_unique eqb l) Hn' Hle')
    as [Hps Hall].
  pose proof (parts_of_join
                (N.to_nat (N.of_nat (length (adjacent_unique eqb l)) / again))
                (N.to_nat again) (adjacent_unique eqb l) ltac:(lia)) as Hjoin.
  destruct (parts_of _ _ (adjacent_unique eqb l)) as [|part parts] eqn:Hp;
    simplify_eq/=.
  apply first_part_nonempty in Hp; [|done..].
  rewrite merged_equal_to in Hrun2, Hm2 by done.
  rewrite Hjoin, adjacent_unique_twice in Hrun2, Hm2.
  exists m2. split; [done|].
  rewrite Hm2, length_app in Hlen2.
  destruct rest; simpl in *; [by rewrite app_nil_r in Hm2|lia].
Qed.
End twice.

(** *** Ranges that meet the hypotheses *)

Lemma eqb_N_trans (x y z : N) :
  N.eqb x y = true → N.eqb y z = true → N.eqb x z = true.
Proof. rewrite !N.eqb_eq. congruence. Qed.

Lemma unique_equal_to_is_std_unique_witness :
  ∃ n m' m_seq,
    unique_equal_to N.eqb 2 (fresh [1; 1; 2; 3; 3; 3; 4; 4]%N)
      = Returned (n, m') ∧
    std_unique N.eqb 0 (length [1; 1; 2; 3; 3; 3; 4; 4]%N)
               (fresh [1; 1; 2; 3; 3; 3; 4; 4]%N)
      = Returned (n, m_seq) ∧
    take n (cells m') = adjacent_unique N.eqb [1; 1; 2; 3; 3; 3; 4; 4]%N ∧
    take n (cells m_seq)
      = adjacent_unique N.eqb [1; 1; 2; 3; 3; 3; 4; 4]%N.
Proof.
  apply (unique_equal_to_is_std_unique N.eqb N.eqb_sym eqb_N_trans 2).
  - done.
  - by vm_compute.
Defined.

Lemma unique_keeps_subsequence_witness :
  ∃ n m',
    unique N.eqb same_pair 2 (fresh [0; 1; 2; 2]%N) = Returned (n, m') ∧
    0 < n ≤ length [0; 1; 2; 2]%N ∧
    length (cells m') = length [0; 1; 2; 2]%N ∧
    take n (cells m') `sublist_of` [0; 1; 2; 2]%N.
Proof.
  apply (unique_keeps_subsequence N.eqb same_pair 2).
  - done.
  - by vm_compute.
Defined.

Lemma unique_parts_tile_witness :
  ∃ n m',
    unique N.eqb N.eqb 3 (fresh [1; 1; 2; 3; 3; 3; 4; 4]%N)
      = Returned (n, m') ∧
    length (launched m') = N.to_nat 3 ∧
    mjoin (positions <$> launched m')
      = seq 0 (length [1; 1; 2; 3; 3; 3; 4; 4]%N).
Proof.
  apply (unique_parts_tile N.eqb N.eqb 3).
  - done.
  - by vm_compute.
Defined.

Lemma sort_then_unique_witness :
  ∃ st,
    rtc (@MtSort.pool_step N MtSort.reference_algorithms (Some (0%N, N.ltb)))
        (MtSort.PoolState [3; 1; 4; 1]%N [(0, 4)]) st ∧
    MtSort.task_queue st = [] ∧
    ∃ n m',
      unique_equal_to N.eqb 2 (fresh (MtSort.cells st)) = Returned (n, m') ∧
      increasing N.ltb (take n (cells m')) ∧
      ∀ x, x ∈ take n (cells m') ↔ x ∈ [3; 1; 4; 1]%N.
Proof.
  destruct (MtSortSpec.drained_run_exists [3; 1; 4; 1]%N)
    as (st & Hrtc & Hq).
  exists st. split; [exact Hrtc|]. split; [exact Hq|].
  apply (@sort_then_unique N MtSort.reference_algorithms N.ltb N.eqb
           MtSortSpec.ltb_strict_weak_order MtSortSpec.ltb_total N.eqb_eq
           [3; 1; 4; 1]%N 0 st 2).
  - apply MtSortSpec.reference_conforming.
  - exact Hrtc.
  - exact Hq.
  - done.
  - by vm_compute.
Defined.

(** What a call returned has the property [P]. *)
Definition returning {X} (r : outcome X) (P : X → Prop) : Prop :=
  match r with
  | Returned x => P x
  | _ => False
  end.

Lemma unique_equal_to_twice_witness :
  returning (unique_equal_to N.eqb 2 (fresh [1; 1; 2; 3; 3; 3; 4; 4]%N))
            (λ r, ∃ m2,
               unique_equal_to N.eqb 2 (fresh (take r.1 (cells r.2)))
                 = Returned (r.1, m2) ∧
               cells m2 = take r.1 (cells r.2)).
Proof.
  unfold returning.
  destruct (unique_equal_to N.eqb 2 _) as [[n m1]| |] eqn:Hrun;
    [|by vm_compute in Hrun..].
  apply (unique_equal_to_twice N.eqb N.eqb_sym eqb_N_trans 2 2
           [1; 1; 2; 3; 3; 3; 4; 4]%N n m1); [done|by vm_compute|done|done|].
  vm_compute in Hrun. injection Hrun as <- _. by vm_compute.
Defined.

End MtUniqueSpec.

(** ** A call of sort and its pool *)

Module SortCallSpec.
Import ThreadPool ThreadPoolSpec.

(** The task [sort] pushes at line 94: [quick_sort] bound to [begin] and
    [end]. *)
Definition root_task (len : nat) : task := Task 0 [0%Z; Z.of_nat len].

(** The first worker runs the task and goes to sleep, the owner comes
    out of the destructor's [wait()], the second worker starts only now
    and tests [shutdown_request] before line 71 sets it, the owner sets
    it and notifies, the second worker blocks, the first one returns, and
    the owner ends the destructor. *)
Definition late_worker : list label :=
  replicate 3 (Step Owner 0) ++ replicate 11 (Step (Worker 0) 0) ++
  replicate 2 (Step Owner 0) ++ replicate 6 (Step (Worker 1) 0) ++
  replicate 2 (Step Owner 0) ++ [Step (Worker 1) 0] ++
  replicate 6 (Step (Worker 0) 0) ++ [Step Owner 0].

(** C1 fails on the code.  With a thread count of 2^61 the product of
    line 73 is zero in [size_t] arithmetic and [sort] divides by zero.
    And a call with two threads need not terminate: [sort] constructs a
    pool of two workers, pushes the task of the whole range and leaves
    through the destructor of the pool (lines 74, 94, 95); on a range of
    one element that task returns at once and pushes nothing; and the
    pool has a run, without any spurious wake-up, at the end of which the
    task has been called, one worker has returned, the other is blocked
    on [queue_cv], and neither it nor the destructor can take a step. *)
Lemma sort_call_fails :
  (∀ fuel,
     @MtSort.sort N MtSort.reference_algorithms fuel MtSort.program_start
                  [2; 1]%N N.ltb (2 ^ 61)
       = (MtSort.program_start, Some (Undefined DivisionByZero))) ∧
  (∀ env,
     @MtSort.quick_sort N MtSort.reference_algorithms env (0, 1) [7]%N
       = Returned ([7]%N, [])) ∧
  after quiet late_worker (thread_pool 2 [Push (root_task 1); Destroy])
        (λ s,
          executed s = [root_task 1] ∧ task_queue s = [] ∧
          shutdown_request s = true ∧ owner s = OJoin ∧
          threads s = [WExited; WBlocked] ∧ undefined s = None ∧
          ∀ l, is_spurious l = false → step quiet l s = None).
Proof.
  split_and!; [done|done|].
  vm_compute. split_and!; try done.
  intros [[|[|[|i]]] wake|th] Hl; done.
Qed.

End SortCallSpec.

(** ** Thread counts *)

Module ThreadCountSpec.
Import ThreadPool ThreadPoolSpec.

(** C6 fails on the code: no thread count is rejected anywhere.  [sort]
    with a thread count of zero divides by zero at line 73, on whatever
    range; [unique] with a thread count of zero divides by zero at line
    62, and with more threads than elements it reads before the range at
    line 75; the constructor of the pool takes a thread count of zero and
    builds a pool without workers, whose [wait()] blocks for good once a
    task has been pushed, the task never being called. *)
Lemma thread_count_not_rejected :
  (∀ fuel,
    (@MtSort.sort N MtSort.reference_algorithms fuel MtSort.program_start
                  [2; 1]%N N.ltb 0).2
      = Some (Undefined DivisionByZero)) ∧
  MtUnique.unique N.eqb N.eqb 0 (MtUnique.fresh [5; 5]%N)
    = Undefined DivisionByZero ∧
  MtUnique.unique N.eqb N.eqb 2 (MtUnique.fresh [5]%N)
    = Undefined OutOfRange ∧
  after quiet (replicate 3 (Step Owner 0))
        (thread_pool 0 [Push f_with_args; Wait])
        (λ s,
          threads s = [] ∧ owner s = OWaitBlocked false ∧
          task_queue s = [f_with_args] ∧ executed s = [] ∧
          ∀ l, is_spurious l = false → step quiet l s = None).
Proof.
  split_and!; [done|by vm_compute..|].
  vm_compute. split_and!; try done.
  intros [[|i] wake|th] Hl; done.
Qed.

End ThreadCountSpec.
